(** * Closed-island counter: [Solution::closedIsland] of
    [corpus/Assignment1/main.cpp], embedded and verified.

    The C++ routine takes a [vector<vector<int>>& grid], allocates a local
    [visited] matrix, defines a recursive lambda [dfs] that captures [n], [m],
    [grid] and [visited] by reference, floods from the border cells and then
    counts the flood fills started in the strict interior.

    The embedding keeps that shape: the captured variables live in a [Store];
    the code is written in a state-and-error monad [M]; vector indexing is
    fallible ([OutOfBounds] stands for the undefined behaviour of
    [operator[]] out of range); the recursion of [dfs] is bounded by a depth
    budget ([OutOfFuel] stands for a recursion that did not finish within
    it).  The [int] variables are modelled in [Z] without wrap-around: the
    values the routine computes are indices between [-1] and [max n m]
    ([dfs] recurses only from a cell inside the grid) and a counter bounded
    by the number of interior cells (see [closedIsland_count_range]), so
    they are those of the C++ program whenever [n * m] fits in an [int]. *)

From stdpp Require Import base option list numbers relations.

Local Open Scope Z_scope.

(** ** Data model *)

(** [vector<vector<int>>]. *)
Abbreviation Grid := (list (list Z)).

(** A grid position [(i, j)]: row, column. *)
Abbreviation Cell := (Z * Z)%type.

(** [v[i]] for an [int] index: defined only for [0 <= i < v.size()]. *)
Definition vec_at {A : Type} (v : list A) (i : Z) : option A :=
  if Z.ltb i 0 then None else v !! Z.to_nat i.

(** [g[i][j]] as an rvalue. *)
Definition cell_at (g : Grid) (i j : Z) : option Z :=
  match vec_at g i with
  | Some r => vec_at r j
  | None => None
  end.

(** [g[i][j] = x]: defined only where [g[i][j]] is. *)
Definition cell_set (g : Grid) (i j : Z) (x : Z) : option Grid :=
  match vec_at g i with
  | Some r =>
      match vec_at r j with
      | Some _ => Some (<[Z.to_nat i := <[Z.to_nat j := x]> r]> g)
      | None => None
      end
  | None => None
  end.

(** The variables [dfs] captures by reference, the local counter, and two
    ghost fields that only record what the execution does: [history] holds
    every value the [visited] matrix has had (newest first), [roots] every
    cell at which one of the loops started a flood fill (newest first). *)
Record Store : Type := mkStore {
  grid : Grid;
  visited : Grid;
  count : Z;
  history : list Grid;
  roots : list Cell
}.

(** ** The state-and-error monad *)

Inductive Res (A : Type) : Type :=
| Ok (a : A)
| OutOfFuel
| OutOfBounds.
Arguments Ok {A} a.
Arguments OutOfFuel {A}.
Arguments OutOfBounds {A}.

Definition M (A : Type) : Type := Store → Res (A * Store).

Definition ret {A : Type} (a : A) : M A := λ s, Ok (a, s).

Definition bind {A B : Type} (c : M A) (k : A → M B) : M B :=
  λ s, match c s with
       | Ok (a, s') => k a s'
       | OutOfFuel => OutOfFuel
       | OutOfBounds => OutOfBounds
       end.

Declare Scope prog_scope.
Delimit Scope prog_scope with prog.
Notation "'let*' x := c 'in' k" := (bind c (λ x, k))
  (at level 10, x name, c at level 100, k at level 200) : prog_scope.
Notation "c1 ;; c2" := (bind c1 (λ _, c2))
  (at level 100, c2 at level 200, right associativity) : prog_scope.
Local Open Scope prog_scope.

(** [grid[i][j]] *)
Definition read_grid (i j : Z) : M Z :=
  λ s, match cell_at (grid s) i j with
       | Some x => Ok (x, s)
       | None => OutOfBounds
       end.

(** [visited[i][j]] *)
Definition read_visited (i j : Z) : M Z :=
  λ s, match cell_at (visited s) i j with
       | Some x => Ok (x, s)
       | None => OutOfBounds
       end.

(** [visited[i][j] = 1] *)
Definition mark_visited (i j : Z) : M unit :=
  λ s, match cell_set (visited s) i j 1 with
       | Some v' => Ok (tt, mkStore (grid s) v' (count s) (v' :: history s) (roots s))
       | None => OutOfBounds
       end.

(** [count++] *)
Definition incr_count : M unit :=
  λ s, Ok (tt, mkStore (grid s) (visited s) (count s + 1) (history s) (roots s)).

Definition get_count : M Z := λ s, Ok (count s, s).

(** Ghost: note that a loop starts a flood fill at [(i, j)]. *)
Definition note_root (i j : Z) : M unit :=
  λ s, Ok (tt, mkStore (grid s) (visited s) (count s) (history s) ((i, j) :: roots s)).

(** [for (int i = lo; ...; i++) body(i)], run for [k] iterations. *)
Fixpoint for_loop (k : nat) (i : Z) (body : Z → M unit) : M unit :=
  match k with
  | O => ret tt
  | S k' => body i ;; for_loop k' (i + 1) body
  end.

(** [for (int i = lo; i < hi; i++) body(i)] *)
Definition for_range (lo hi : Z) (body : Z → M unit) : M unit :=
  for_loop (Z.to_nat (hi - lo)) lo body.

(** ** The program *)

(** The lambda [dfs]; [fuel] bounds the recursion depth. *)
Fixpoint dfs (fuel : nat) (n m : Z) (i j : Z) : M unit :=
  match fuel with
  | O => λ _, OutOfFuel
  | S fuel' =>
      if (i <? 0) || (j <? 0) || (i >=? n) || (j >=? m) then ret tt
      else
        let* c := read_grid i j in
        if c =? 1 then ret tt
        else
          let* v := read_visited i j in
          if negb (v =? 0) then ret tt
          else
            mark_visited i j ;;
            dfs fuel' n m (i + 1) j ;;
            dfs fuel' n m (i - 1) j ;;
            dfs fuel' n m i (j + 1) ;;
            dfs fuel' n m i (j - 1)
  end.

(** The condition [grid[i][j] == 0 && !visited[i][j]] (short-circuit). *)
Definition unvisited_land (i j : Z) : M bool :=
  let* c := read_grid i j in
  if c =? 0 then
    let* v := read_visited i j in ret (v =? 0)
  else ret false.

(** [if (grid[i][j] == 0 && !visited[i][j]) dfs(i, j, dfs);] *)
Definition flood_if_new (fuel : nat) (n m : Z) (i j : Z) : M unit :=
  let* b := unvisited_land i j in
  if b then note_root i j ;; dfs fuel n m i j else ret tt.

(** Step 1: mark all border 0s. *)
Definition mark_border (fuel : nat) (n m : Z) : M unit :=
  for_range 0 n (λ i,
    flood_if_new fuel n m i 0 ;;
    flood_if_new fuel n m i (m - 1)) ;;
  for_range 0 m (λ j,
    flood_if_new fuel n m 0 j ;;
    flood_if_new fuel n m (n - 1) j).

(** Step 2: count closed islands. *)
Definition count_islands (fuel : nat) (n m : Z) : M unit :=
  for_range 1 (n - 1) (λ i,
    for_range 1 (m - 1) (λ j,
      let* b := unvisited_land i j in
      if b then note_root i j ;; dfs fuel n m i j ;; incr_count else ret tt)).

Definition closedIsland_body (fuel : nat) (n m : Z) : M Z :=
  mark_border fuel n m ;;
  count_islands fuel n m ;;
  get_count.

(** The state in which the body starts: [visited(n, vector<int>(m, 0))],
    [count = 0]. *)
Definition init_store (g : Grid) (n m : Z) : Store :=
  let v0 := replicate (Z.to_nat n) (replicate (Z.to_nat m) 0) in
  mkStore g v0 0 [v0] [].

(** The whole call with a recursion budget: the result and the final store
    (whose [grid] field is what the caller's vector holds afterwards). *)
Definition closedIsland_run (fuel : nat) (g : Grid) : Res (Z * Store) :=
  let n := Z.of_nat (length g) in
  match vec_at g 0 with
  | None => OutOfBounds
  | Some r0 =>
      let m := Z.of_nat (length r0) in
      closedIsland_body fuel n m (init_store g n m)
  end.

(** Budget that suffices for every rectangular grid: one more than the number
    of cells (proved in [closedIsland_run_total]). *)
Definition enough_fuel (g : Grid) : nat :=
  S (length g * length (default [] (head g))).

Definition closedIsland (g : Grid) : Res Z :=
  match closedIsland_run (enough_fuel g) g with
  | Ok (r, _) => Ok r
  | OutOfFuel => OutOfFuel
  | OutOfBounds => OutOfBounds
  end.

(** ** Valid inputs *)

(** [n >= 1], [m >= 1], all rows of length [m], every cell 0 or 1. *)
Definition valid_grid (g : Grid) : bool :=
  match g with
  | [] => false
  | r0 :: _ =>
      negb (Nat.eqb (length r0) 0)
      && forallb (λ r, Nat.eqb (length r) (length r0)) g
      && forallb (forallb (λ x, (x =? 0) || (x =? 1))) g
  end.

Definition nrows (g : Grid) : Z := Z.of_nat (length g).
Definition ncols (g : Grid) : Z := Z.of_nat (length (default [] (head g))).

(** The grids of the concrete scenarios. *)
Definition grid_enclosed_cell : Grid :=
  [[0;0;1;0;0];[0;1;0;1;0];[0;1;1;1;0];[0;0;0;0;0]].

Definition grid_two_islands : Grid :=
  [[1;1;1;1;1;1;1;0];[1;0;0;0;0;1;1;0];[1;0;1;0;1;1;1;0];[1;0;0;0;0;1;0;1];[1;1;1;1;1;1;1;0]].

(** ** Specification vocabulary *)

(** Land: an in-range cell holding 0 (water holds 1). *)
Definition land (g : Grid) (c : Cell) : Prop := cell_at g c.1 c.2 = Some 0.

(** The four orthogonal neighbours. *)
Definition adj (c c' : Cell) : Prop :=
  (c'.1 = c.1 + 1 ∧ c'.2 = c.2) ∨ (c'.1 = c.1 - 1 ∧ c'.2 = c.2) ∨
  (c'.1 = c.1 ∧ c'.2 = c.2 + 1) ∨ (c'.1 = c.1 ∧ c'.2 = c.2 - 1).

(** One step between neighbouring land cells, and paths of such steps. *)
Definition lstep (g : Grid) (c c' : Cell) : Prop :=
  land g c ∧ land g c' ∧ adj c c'.

Definition connected (g : Grid) (c c' : Cell) : Prop :=
  land g c ∧ rtc (lstep g) c c'.

(** Row 0, row n-1, column 0 or column m-1. *)
Definition on_border (n m : Z) (c : Cell) : Prop :=
  c.1 = 0 ∨ c.1 = n - 1 ∨ c.2 = 0 ∨ c.2 = m - 1.

(** Strict interior: rows 1..n-2, columns 1..m-2. *)
Definition interior (n m : Z) (c : Cell) : Prop :=
  1 ≤ c.1 ≤ n - 2 ∧ 1 ≤ c.2 ≤ m - 2.

(** A land cell whose region (the cells connected to it) has no border cell. *)
Definition closed_cell (g : Grid) (c : Cell) : Prop :=
  land g c ∧ ∀ b, connected g c b → ¬ on_border (nrows g) (ncols g) b.

(** [k] is the number of closed islands of [g]: there is a list of [k] closed
    land cells, no two of them in one region, that meets every closed
    region. *)
Definition closed_island_count (g : Grid) (k : Z) : Prop :=
  ∃ reps : list Cell,
    Z.of_nat (length reps) = k ∧
    Forall (closed_cell g) reps ∧
    NoDup reps ∧
    (∀ c c', c ∈ reps → c' ∈ reps → connected g c c' → c = c') ∧
    (∀ c, closed_cell g c → ∃ r, r ∈ reps ∧ connected g r c).


(** The number of interior land cells, computed. *)
Definition interior_cells (g : Grid) : list Cell :=
  i ← seqZ 1 (nrows g - 2); (λ j, (i, j)) <$> seqZ 1 (ncols g - 2).

Definition is_land (g : Grid) (c : Cell) : bool :=
  match cell_at g c.1 c.2 with
  | Some x => x =? 0
  | None => false
  end.

Definition interior_land_count (g : Grid) : Z :=
  Z.of_nat (length (filter (λ c, is_land g c = true) (interior_cells g))).

(** Every cell holds [x]. *)
Definition all_cells (x : Z) (g : Grid) : bool :=
  forallb (forallb (λ y, y =? x)) g.

(** A [visited] matrix marks only land of [g]. *)
Definition marks_only_land (g v : Grid) : Prop :=
  ∀ i j x, cell_at v i j = Some x → x ≠ 0 → x = 1 ∧ cell_at g i j = Some 0.

(** ** Reasoning about programs in [M] *)

(** [c] run from [s] finishes without error in a state satisfying [Q]. *)
Definition wp {A : Type} (c : M A) (Q : A → Store → Prop) (s : Store) : Prop :=
  match c s with
  | Ok (a, s') => Q a s'
  | OutOfFuel => False
  | OutOfBounds => False
  end.

(** [v] is an [n] by [m] matrix. *)
Definition shape (v : Grid) (n m : Z) : Prop :=
  Z.of_nat (length v) = n ∧ Forall (λ r, Z.of_nat (length r) = m) v.

Definition inb (n m : Z) (c : Cell) : Prop :=
  0 ≤ c.1 < n ∧ 0 ≤ c.2 < m.

(** [visited[i][j]] is set. *)
Definition marked (v : Grid) (c : Cell) : Prop :=
  ∃ x, cell_at v c.1 c.2 = Some x ∧ x ≠ 0.

(** Number of zero entries of a row, of a matrix. *)
Definition zeros (r : list Z) : nat :=
  length (filter (λ x, x = 0) r).

Definition zeros2 (v : Grid) : nat :=
  sum_list (zeros <$> v).

(** ** Rules for [wp] *)

Section wp_rules.
Context {A B : Type}.
Implicit Types (c : M A) (k : A → M B) (s : Store).

Lemma wp_ret (a : A) (Q : A → Store → Prop) s : Q a s → wp (ret a) Q s.
Proof. done. Qed.

Lemma wp_bind c k (Q : B → Store → Prop) s :
  wp c (λ a s', wp (k a) Q s') s → wp (let* x := c in k x) Q s.
Proof. unfold wp, bind. destruct (c s) as [[a s']| |]; done. Qed.

Lemma wp_mono c (Q Q' : A → Store → Prop) s :
  wp c Q s → (∀ a s', Q a s' → Q' a s') → wp c Q' s.
Proof. unfold wp. destruct (c s) as [[a s']| |]; auto. Qed.

Lemma wp_ok c (Q : A → Store → Prop) s :
  wp c Q s ↔ ∃ a s', c s = Ok (a, s') ∧ Q a s'.
Proof.
  unfold wp. split.
  - destruct (c s) as [[a s']| |]; naive_solver.
  - intros (a & s' & -> & HQ). done.
Qed.
End wp_rules.

(** The loop rule: [I i] holds before iteration [i]. *)
Lemma wp_for_loop (I : Z → Store → Prop) (body : Z → M unit) k lo s :
  I lo s →
  (∀ i s', lo ≤ i < lo + Z.of_nat k → I i s' →
           wp (body i) (λ _ s'', I (i + 1) s'') s') →
  wp (for_loop k lo body) (λ _ s', I (lo + Z.of_nat k) s') s.
Proof.
  revert lo s. induction k as [|k IH]; intros lo s HI Hbody; simpl.
  - apply wp_ret. by replace (lo + Z.of_nat 0) with lo by lia.
  - apply wp_bind. eapply wp_mono; [apply Hbody; [lia|done]|].
    intros [] s' HI'. simpl.
    replace (lo + Z.of_nat (S k)) with ((lo + 1) + Z.of_nat k) by lia.
    apply IH; [done|]. intros i s'' Hi. apply Hbody. lia.
Qed.

Lemma wp_for_range (I : Z → Store → Prop) (body : Z → M unit) lo hi s :
  I lo s →
  (∀ i s', lo ≤ i < hi → I i s' → wp (body i) (λ _ s'', I (i + 1) s'') s') →
  wp (for_range lo hi body) (λ _ s', I (Z.max lo hi) s') s.
Proof.
  intros HI Hbody. unfold for_range.
  eapply wp_mono.
  - apply (wp_for_loop I); [done|]. intros i s' Hi. apply Hbody. lia.
  - simpl. intros [] s'.
    by replace (lo + Z.of_nat (Z.to_nat (hi - lo))) with (Z.max lo hi) by lia.
Qed.

(** A loop whose range is empty does nothing. *)
Lemma for_range_empty (body : Z → M unit) lo hi s :
  hi ≤ lo → for_range lo hi body s = Ok (tt, s).
Proof. intros. unfold for_range. by replace (Z.to_nat (hi - lo)) with 0%nat by lia. Qed.

(** ** Matrices *)

Lemma vec_at_Some {A} (v : list A) i x :
  vec_at v i = Some x ↔ 0 ≤ i ∧ v !! Z.to_nat i = Some x.
Proof.
  unfold vec_at. destruct (Z.ltb_spec i 0); split; try done.
  - intros [? _]. lia.
  - by intros [_ ?].
Qed.

Lemma cell_at_Some (v : Grid) i j x :
  cell_at v i j = Some x ↔
  ∃ r, 0 ≤ i ∧ v !! Z.to_nat i = Some r ∧ 0 ≤ j ∧ r !! Z.to_nat j = Some x.
Proof.
  unfold cell_at. split.
  - destruct (vec_at v i) as [r|] eqn:Hr; [|done].
    intros Hx. apply vec_at_Some in Hr as [? ?]. apply vec_at_Some in Hx as [? ?].
    by exists r.
  - intros (r & ? & Hr & ? & Hx).
    assert (vec_at v i = Some r) as -> by (apply vec_at_Some; done).
    by apply vec_at_Some.
Qed.

Lemma shape_row (v : Grid) n m i r :
  shape v n m → v !! i = Some r → Z.of_nat (length r) = m.
Proof.
  intros [_ Hall] Hr. rewrite Forall_lookup in Hall. by apply (Hall i).
Qed.

Lemma cell_at_inb (v : Grid) n m i j x :
  shape v n m → cell_at v i j = Some x → inb n m (i, j).
Proof.
  intros Hsh (r & ? & Hr & ? & Hx)%cell_at_Some.
  pose proof (shape_row _ _ _ _ _ Hsh Hr).
  pose proof (lookup_lt_Some _ _ _ Hx). pose proof (lookup_lt_Some _ _ _ Hr).
  destruct Hsh as [? _]. unfold inb; simpl. lia.
Qed.

Lemma cell_at_is_Some (v : Grid) n m i j :
  shape v n m → inb n m (i, j) → is_Some (cell_at v i j).
Proof.
  intros Hsh [[? ?] [? ?]]; simpl in *.
  destruct (lookup_lt_is_Some_2 v (Z.to_nat i)) as [r Hr]; [destruct Hsh; lia|].
  pose proof (shape_row _ _ _ _ _ Hsh Hr).
  destruct (lookup_lt_is_Some_2 r (Z.to_nat j)) as [x Hx]; [lia|].
  exists x. apply cell_at_Some. eauto 10.
Qed.

Lemma zeros_insert (r : list Z) j :
  r !! j = Some 0 → (zeros (<[j := 1%Z]> r) + 1 = zeros r)%nat.
Proof.
  unfold zeros. revert j. induction r as [|y r IH]; intros [|j] Hj; simplify_eq/=.
  - rewrite filter_cons_False by done. lia.
  - specialize (IH _ Hj).
    destruct (decide (y = 0)).
    + rewrite !filter_cons_True by done. simpl. lia.
    + rewrite !filter_cons_False by done. done.
Qed.

Lemma zeros2_insert (v : Grid) i r r' :
  v !! i = Some r →
  (zeros2 (<[i := r']> v) + zeros r = zeros2 v + zeros r')%nat.
Proof.
  unfold zeros2. revert i. induction v as [|y v IH]; intros [|i] Hi; csimpl in *; simplify_eq.
  - lia.
  - specialize (IH _ Hi). lia.
Qed.

Lemma zeros2_le (v : Grid) n m :
  shape v n m → Z.of_nat (zeros2 v) ≤ n * m.
Proof.
  intros [<- Hall]. unfold zeros2.
  induction Hall as [|r v Hr Hall IH]; csimpl; [lia|].
  assert (zeros r ≤ length r)%nat by apply length_filter. nia.
Qed.

(** What [visited[i][j] = 1] does to the matrix. *)
Lemma cell_set_spec (v : Grid) n m i j :
  shape v n m → cell_at v i j = Some 0 →
  ∃ v', cell_set v i j 1 = Some v' ∧
        shape v' n m ∧
        cell_at v' i j = Some 1 ∧
        (∀ i' j', (i', j') ≠ (i, j) → cell_at v' i' j' = cell_at v i' j') ∧
        (zeros2 v' + 1 = zeros2 v)%nat.
Proof.
  intros Hsh Hc. pose proof Hc as (r & Hi & Hr & Hj & Hx)%cell_at_Some.
  unfold cell_set.
  assert (vec_at v i = Some r) as -> by (by apply vec_at_Some).
  assert (vec_at r j = Some 0) as -> by (by apply vec_at_Some).
  eexists; split; [done|].
  pose proof (lookup_lt_Some _ _ _ Hr). pose proof (lookup_lt_Some _ _ _ Hx).
  split_and!.
  - destruct Hsh as [Hn Hall]. split; [by rewrite length_insert|].
    apply Forall_insert; [done|]. rewrite length_insert.
    by eapply shape_row.
  - apply cell_at_Some. exists (<[Z.to_nat j:=1]> r). split_and!; try done.
    + by apply list_lookup_insert_eq.
    + by apply list_lookup_insert_eq.
  - intros i' j' Hne. unfold cell_at, vec_at.
    destruct (Z.ltb_spec i' 0); [done|].
    destruct (decide (Z.to_nat i = Z.to_nat i')) as [Heq|Heq].
    + assert (i' = i) as -> by lia.
      rewrite list_lookup_insert_eq by done. rewrite Hr.
      destruct (Z.ltb_spec j' 0); [done|].
      rewrite list_lookup_insert_ne; [done|]. intros ?. apply Hne. f_equal. lia.
    + by rewrite list_lookup_insert_ne.
  - pose proof (zeros2_insert v (Z.to_nat i) r (<[Z.to_nat j:=1]> r) Hr).
    pose proof (zeros_insert r (Z.to_nat j) Hx). lia.
Qed.

Lemma shape_replicate n m :
  0 ≤ n → 0 ≤ m →
  shape (replicate (Z.to_nat n) (replicate (Z.to_nat m) 0)) n m.
Proof.
  intros. split; [rewrite length_replicate; lia|].
  apply Forall_replicate. rewrite length_replicate. lia.
Qed.

Lemma cell_at_replicate n m i j x :
  cell_at (replicate (Z.to_nat n) (replicate (Z.to_nat m) 0)) i j = Some x → x = 0.
Proof.
  intros (r & ? & Hr & ? & Hx)%cell_at_Some.
  apply lookup_replicate in Hr as [-> _]. by apply lookup_replicate in Hx as [-> _].
Qed.

Lemma wp_bind_ok {A B} (c : M A) (k : A → M B) (Q : B → Store → Prop) s a s' :
  c s = Ok (a, s') → wp (k a) Q s' → wp (let* x := c in k x) Q s.
Proof. intros Hc Hk. unfold wp, bind in *. by rewrite Hc. Qed.

Lemma marked_dec (v : Grid) (c : Cell) : marked v c ∨ ¬ marked v c.
Proof.
  unfold marked. destruct (cell_at v c.1 c.2) as [x|].
  - destruct (decide (x = 0)) as [->|Hx].
    + right. intros (y & [= <-] & Hy). done.
    + left. by exists x.
  - right. intros (y & [=] & _).
Qed.

(** ** Connectivity *)

Section connectivity.
Variable g : Grid.

Lemma adj_sym c c' : adj c c' → adj c' c.
Proof. destruct c, c'. unfold adj. simpl. lia. Qed.

Lemma lstep_sym c c' : lstep g c c' → lstep g c' c.
Proof. intros (? & ? & ?). split_and!; auto using adj_sym. Qed.

Lemma rtc_lstep_land c c' : rtc (lstep g) c c' → land g c → land g c'.
Proof. induction 1 as [|? ? ? (? & ? & ?)]; auto. Qed.

Lemma rtc_lstep_sym c c' : rtc (lstep g) c c' → rtc (lstep g) c' c.
Proof.
  induction 1 as [|x y z Hxy _ IH]; [done|].
  eapply rtc_r; [exact IH|by apply lstep_sym].
Qed.

Lemma connected_refl c : land g c → connected g c c.
Proof. by split. Qed.

Lemma connected_land_l c c' : connected g c c' → land g c.
Proof. by intros []. Qed.

Lemma connected_land_r c c' : connected g c c' → land g c'.
Proof. intros [? ?]. by eapply rtc_lstep_land. Qed.

Lemma connected_sym c c' : connected g c c' → connected g c' c.
Proof.
  intros Hc. split; [by eapply connected_land_r|].
  destruct Hc. by apply rtc_lstep_sym.
Qed.

Lemma connected_trans c1 c2 c3 :
  connected g c1 c2 → connected g c2 c3 → connected g c1 c3.
Proof. intros [? ?] [? ?]. split; [done|]. by etrans. Qed.

Lemma connected_step_l c0 c1 c :
  land g c0 → adj c0 c1 → connected g c1 c → connected g c0 c.
Proof.
  intros H0 Hadj [H1 Hrtc]. split; [done|].
  eapply rtc_l; [|exact Hrtc]. by split_and!.
Qed.

(** A set of cells closed under steps contains the whole region of each of
    its land cells. *)
Lemma closed_under_steps_connected (S : Cell → Prop) c c' :
  (∀ x y, S x → lstep g x y → S y) →
  S c → connected g c c' → S c'.
Proof. intros Hcl Hc [_ Hrtc]. induction Hrtc; eauto. Qed.
End connectivity.

(** ** The flood fill *)

Section flood.
Variables (g : Grid) (n m : Z).
Hypothesis g_shape : shape g n m.
Hypothesis g_binary : ∀ i j x, cell_at g i j = Some x → x = 0 ∨ x = 1.

(** Well-formed stores: the grid is the input, [visited] has its shape, and
    the ghost fields are consistent with what they record: [history] runs
    from the current [visited] back to the all-zero matrix. *)
Definition wfs (s : Store) : Prop :=
  grid s = g ∧ shape (visited s) n m ∧
  head (history s) = Some (visited s) ∧
  Forall (marks_only_land g) (history s) ∧
  Forall (land g) (roots s) ∧
  last (history s) = Some (replicate (Z.to_nat n) (replicate (Z.to_nat m) 0)).

(** The store only grows: [visited] gains marks, the rest stays. *)
Definition grows (s s' : Store) : Prop :=
  wfs s' ∧ count s' = count s ∧ roots s' = roots s ∧
  (zeros2 (visited s') ≤ zeros2 (visited s))%nat ∧
  (∃ h, history s' = h ++ history s) ∧
  (∀ c, marked (visited s) c → marked (visited s') c).

(** Every cell marked between [s] and [s'] is in the region of [c0], and
    all its land neighbours are marked in [s']. *)
Definition fresh_ok (c0 : Cell) (s s' : Store) : Prop :=
  ∀ c, marked (visited s') c → ¬ marked (visited s) c →
       connected g c0 c ∧ ∀ c', lstep g c c' → marked (visited s') c'.

Definition dfs_post (c0 : Cell) (s s' : Store) : Prop :=
  grows s s' ∧ (land g c0 → marked (visited s') c0) ∧ fresh_ok c0 s s'.

Lemma wfs_marks_only_land s : wfs s → marks_only_land g (visited s).
Proof.
  intros (_ & _ & Hhd & Hall & _).
  destruct (history s) as [|v h]; simplify_eq/=. by inversion Hall.
Qed.


Lemma land_inb c : land g c → inb n m c.
Proof. destruct c. intros ?. by eapply cell_at_inb. Qed.

Lemma grows_refl s : wfs s → grows s s.
Proof. intros. split_and!; try done. by exists []. Qed.

Lemma grows_trans s1 s2 s3 : grows s1 s2 → grows s2 s3 → grows s1 s3.
Proof.
  intros (? & ? & ? & ? & [h1 ?] & ?) (? & ? & ? & ? & [h2 ?] & ?).
  split_and!; try congruence; try lia; [|auto].
  exists (h2 ++ h1). rewrite <-(assoc (++)). congruence.
Qed.

Lemma grows_wfs s s' : grows s s' → wfs s'.
Proof. by intros []. Qed.

Lemma grows_marked s s' c : grows s s' → marked (visited s) c → marked (visited s') c.
Proof. intros (? & ? & ? & ? & ? & Hm). apply Hm. Qed.

Lemma fresh_ok_refl c0 s : fresh_ok c0 s s.
Proof. intros c ? ?. done. Qed.

(** Chaining the recursive calls: after the fill from a neighbour [c1] of
    the land cell [c0], what is new is still in the region of [c0]. *)
Lemma fresh_ok_chain c0 c1 s s' s'' :
  land g c0 → adj c0 c1 →
  fresh_ok c0 s s' → grows s' s'' → fresh_ok c1 s' s'' →
  fresh_ok c0 s s''.
Proof.
  intros H0 Hadj Hf1 Hgr Hf2 c Hc Hnc.
  destruct (marked_dec (visited s') c) as [Hc'|Hc'].
  - destruct (Hf1 c Hc' Hnc) as [Hconn Hcl]. split; [done|].
    intros c' Hstep. eapply grows_marked; eauto.
  - destruct (Hf2 c Hc Hc') as [Hconn Hcl]. split; [|done].
    by eapply connected_step_l.
Qed.

Lemma read_grid_eq s i j x :
  cell_at (grid s) i j = Some x → read_grid i j s = Ok (x, s).
Proof. unfold read_grid. by intros ->. Qed.

Lemma read_visited_eq s i j x :
  cell_at (visited s) i j = Some x → read_visited i j s = Ok (x, s).
Proof. unfold read_visited. by intros ->. Qed.

(** [visited[i][j] = 1] at an unmarked land cell. *)
Lemma mark_visited_spec s i j :
  wfs s → land g (i, j) → cell_at (visited s) i j = Some 0 →
  ∃ s', mark_visited i j s = Ok (tt, s') ∧ grows s s' ∧
        marked (visited s') (i, j) ∧
        (∀ c, c ≠ (i, j) → marked (visited s') c → marked (visited s) c) ∧
        (zeros2 (visited s') + 1 = zeros2 (visited s))%nat.
Proof.
  intros Hwf Hland Hv. pose proof Hwf as (Hg & Hsh & Hhd & Hhist & Hroots & Hlast).
  destruct (cell_set_spec _ _ _ _ _ Hsh Hv) as (v' & Hset & Hsh' & Hij & Hother & Hz).
  unfold mark_visited. rewrite Hset. eexists; split; [done|]. simpl.
  assert (marks_only_land g v') as Hmol.
  { intros i' j' x Hx Hne. destruct (decide ((i', j') = (i, j))) as [[= -> ->]|Hd].
    - rewrite Hij in Hx. by simplify_eq.
    - rewrite Hother in Hx by done. by eapply wfs_marks_only_land. }
  split_and!; simpl.
  - unfold grows, wfs; simpl. split_and!; try done; try lia.
    + by constructor.
    + destruct (history s); [done|]. by rewrite last_cons_cons.
    + by exists [v'].
    + intros [i' j'] (x & Hx & Hne). simpl in *.
      destruct (decide ((i', j') = (i, j))) as [[= -> ->]|Hd].
      * rewrite Hv in Hx. by simplify_eq.
      * exists x. by rewrite Hother.
  - by exists 1.
  - intros [i' j'] Hd (x & Hx & Hne). exists x. split; [|done]. simpl in *.
    by rewrite <-Hother.
  - done.
Qed.

(** The flood fill from [(i, j)], with a budget above the number of cells
    not yet marked, finishes; it marks [(i, j)] if that is land, and
    everything it marks lies in the region of [(i, j)] and has all its land
    neighbours marked. *)
Lemma dfs_wp fuel : ∀ i j s,
  wfs s → (zeros2 (visited s) < fuel)%nat →
  wp (dfs fuel n m i j) (λ _ s', dfs_post (i, j) s s') s.
Proof.
  induction fuel as [|fuel IH]; intros i j s Hwf Hfuel; [lia|].
  pose proof Hwf as (Hg & Hsh & _).
  assert (¬ land g (i, j) → dfs_post (i, j) s s) as Hskip.
  { intros Hnl. split_and!; [by apply grows_refl|done|apply fresh_ok_refl]. }
  simpl.
  destruct ((i <? 0) || (j <? 0) || (i >=? n) || (j >=? m)) eqn:Hguard.
  { apply wp_ret, Hskip. intros Hl%land_inb. unfold inb in Hl. simpl in Hl. lia. }
  assert (inb n m (i, j)) as Hinb by (unfold inb; simpl; lia).
  destruct (cell_at_is_Some g n m i j g_shape Hinb) as [x Hx].
  eapply wp_bind_ok; [apply read_grid_eq; by rewrite Hg|].
  destruct (Z.eqb_spec x 1) as [->|Hx1].
  { apply wp_ret, Hskip. unfold land. simpl. by rewrite Hx. }
  assert (x = 0) as -> by (destruct (g_binary _ _ _ Hx); done).
  destruct (cell_at_is_Some _ n m i j Hsh Hinb) as [v Hv].
  eapply wp_bind_ok; [by apply read_visited_eq|].
  destruct (Z.eqb_spec v 0) as [->|Hv0]; simpl.
  2:{ apply wp_ret. split_and!; [by apply grows_refl| |apply fresh_ok_refl].
      intros _. by exists v. }
  destruct (mark_visited_spec s i j Hwf Hx Hv) as (s1 & Hs1 & Hgr1 & Hm1 & Hone & Hz1).
  eapply wp_bind_ok; [exact Hs1|].
  assert (∀ i' j' sa (S : Cell → Prop),
            adj (i, j) (i', j') →
            grows s1 sa → fresh_ok (i, j) s1 sa →
            (∀ c, S c → land g c → marked (visited sa) c) →
            wp (dfs fuel n m i' j')
               (λ _ sb, grows s1 sb ∧ fresh_ok (i, j) s1 sb ∧
                        ∀ c, S c ∨ c = (i', j') → land g c → marked (visited sb) c) sa)
    as Hcall.
  { intros i' j' sa S Hadj Hgra Hfa HS.
    eapply wp_mono; [apply IH; [by eapply grows_wfs|]|].
    - destruct Hgra as (_ & _ & _ & ? & _). lia.
    - intros [] sb (Hgrb & Hmb & Hfb). split_and!.
      + by eapply grows_trans.
      + by eapply fresh_ok_chain.
      + intros c [Hc| ->] Hl; [|by apply Hmb].
        eapply grows_marked; [done|]. by apply HS. }
  assert (adj (i, j) (i + 1, j)) as Hdown by (unfold adj; simpl; lia).
  assert (adj (i, j) (i - 1, j)) as Hup by (unfold adj; simpl; lia).
  assert (adj (i, j) (i, j + 1)) as Hright by (unfold adj; simpl; lia).
  assert (adj (i, j) (i, j - 1)) as Hleft by (unfold adj; simpl; lia).
  apply wp_bind. eapply wp_mono.
  { apply (Hcall _ _ s1 (λ _, False) Hdown); [|apply fresh_ok_refl|done].
    by eapply grows_refl, grows_wfs. }
  intros [] s2 (Hgr2 & Hf2 & HS2). apply wp_bind. eapply wp_mono.
  { apply (Hcall _ _ s2 _ Hup Hgr2 Hf2 HS2). }
  intros [] s3 (Hgr3 & Hf3 & HS3). apply wp_bind. eapply wp_mono.
  { apply (Hcall _ _ s3 _ Hright Hgr3 Hf3 HS3). }
  intros [] s4 (Hgr4 & Hf4 & HS4). eapply wp_mono.
  { apply (Hcall _ _ s4 _ Hleft Hgr4 Hf4 HS4). }
  intros [] s5 (Hgr5 & Hf5 & HS5).
  split_and!.
  - by eapply grows_trans.
  - intros _. by eapply grows_marked.
  - intros c Hc Hnc. destruct (decide (c = (i, j))) as [->|Hne].
    + split; [by apply connected_refl|].
      intros [i' j'] (_ & Hl' & Hadj). apply HS5; [|done].
      unfold adj in Hadj. simpl in Hadj.
      destruct Hadj as [[-> ->]|[[-> ->]|[[-> ->]|[-> ->]]]]; auto.
    + apply Hf5; [done|]. intros Hc1. apply Hnc. by apply Hone.
Qed.
(** ** The two passes *)

Hypothesis n_pos : 1 ≤ n.
Hypothesis m_pos : 1 ≤ m.
Variable fuel : nat.
Hypothesis fuel_enough : n * m < Z.of_nat fuel.

(** [visited] is a union of regions. *)
Definition closed_under (s : Store) : Prop :=
  ∀ x y, marked (visited s) x → lstep g x y → marked (visited s) y.

(** The region of [c] has a border cell. *)
Definition open_cell (c : Cell) : Prop :=
  ∃ b, connected g c b ∧ on_border n m b.

(** What holds between any two flood fills started by the loops. *)
Definition base_inv (s : Store) : Prop :=
  wfs s ∧ (zeros2 (visited s) < fuel)%nat ∧ closed_under s.

(** Step 1, after the cells in [Done] have been tried. *)
Definition border_inv (Done : Cell → Prop) (s : Store) : Prop :=
  base_inv s ∧ count s = 0 ∧
  (∀ c, marked (visited s) c → open_cell c) ∧
  (∀ c, Done c → land g c → marked (visited s) c).

(** Step 2, after the cells in [Done] have been tried: [reps] holds the roots
    counted so far. *)
Definition count_inv (Done : Cell → Prop) (s : Store) : Prop :=
  base_inv s ∧
  (∀ b, land g b → on_border n m b → marked (visited s) b) ∧
  ∃ reps : list Cell,
    count s = Z.of_nat (length reps) ∧
    Forall (closed_cell g) reps ∧
    NoDup reps ∧
    (∀ c c', c ∈ reps → c' ∈ reps → connected g c c' → c = c') ∧
    (∀ r, r ∈ reps → marked (visited s) r) ∧
    (∀ c, marked (visited s) c → open_cell c ∨ ∃ r, r ∈ reps ∧ connected g r c) ∧
    (∀ c, Done c → land g c → marked (visited s) c).

Definition with_root (c : Cell) (s : Store) : Store :=
  mkStore (grid s) (visited s) (count s) (history s) (c :: roots s).

Definition with_count (k : Z) (s : Store) : Store :=
  mkStore (grid s) (visited s) k (history s) (roots s).

Lemma nrows_eq : nrows g = n.
Proof. by destruct g_shape. Qed.

Lemma ncols_eq : ncols g = m.
Proof.
  destruct g_shape as [Hlen Hall]. unfold ncols.
  destruct g as [|r0 g']; simpl in *; [lia|]. by inversion Hall.
Qed.

Lemma closed_cell_alt c :
  closed_cell g c ↔ land g c ∧ ∀ b, connected g c b → ¬ on_border n m b.
Proof. unfold closed_cell. by rewrite nrows_eq, ncols_eq. Qed.

Lemma base_inv_with_root c s : base_inv s → land g c → base_inv (with_root c s).
Proof.
  intros ((? & ? & ? & ? & ? & ?) & ? & ?) ?.
  unfold base_inv, wfs. split_and!; try done. simpl. by constructor.
Qed.

Lemma base_inv_with_count k s : base_inv s → base_inv (with_count k s).
Proof. by intros ((? & ? & ? & ? & ? & ?) & ? & ?). Qed.

(** The loops' test [grid[i][j] == 0 && !visited[i][j]]. *)
Lemma unvisited_land_spec i j s :
  wfs s → inb n m (i, j) →
  ∃ b : bool, unvisited_land i j s = Ok (b, s) ∧
              (if b then land g (i, j) ∧ ¬ marked (visited s) (i, j)
               else land g (i, j) → marked (visited s) (i, j)).
Proof.
  intros Hwf Hinb. pose proof Hwf as (Hg & Hsh & _).
  destruct (cell_at_is_Some g n m i j g_shape Hinb) as [x Hx].
  destruct (cell_at_is_Some _ n m i j Hsh Hinb) as [v Hv].
  unfold unvisited_land, bind.
  rewrite (read_grid_eq s i j x) by (by rewrite Hg).
  destruct (Z.eqb_spec x 0) as [->|Hx0].
  - rewrite (read_visited_eq s i j v) by done.
    exists (v =? 0). split; [done|].
    destruct (Z.eqb_spec v 0) as [->|Hv0].
    + split; [done|]. intros (y & Hy & Hne). simpl in Hy. congruence.
    + intros _. by exists v.
  - exists false. split; [done|]. unfold land. simpl. congruence.
Qed.

(** A flood fill started by one of the loops marks exactly one more region. *)
Lemma dfs_root i j s :
  base_inv s →
  wp (dfs fuel n m i j)
     (λ _ s', base_inv s' ∧ grows s s' ∧
              (land g (i, j) → marked (visited s') (i, j)) ∧
              (∀ c, marked (visited s') c →
                    marked (visited s) c ∨ connected g (i, j) c)) s.
Proof.
  intros (Hwf & Hfuel & Hcl).
  eapply wp_mono; [by apply dfs_wp|].
  intros [] s' (Hgr & Hroot & Hfresh). split_and!; try done.
  - split_and!; [by eapply grows_wfs| |].
    + destruct Hgr as (_ & _ & _ & ? & _). lia.
    + intros x y Hx Hstep.
      destruct (marked_dec (visited s) x) as [Hx0|Hx0].
      * eapply grows_marked; [done|]. by eapply Hcl.
      * by apply (Hfresh x Hx Hx0).
  - intros c Hc. destruct (marked_dec (visited s) c) as [Hc0|Hc0]; [by left|].
    right. by apply (Hfresh c Hc Hc0).
Qed.

(** A region that meets a marked region is marked. *)
Lemma closed_under_connected s c c' :
  closed_under s → marked (visited s) c → connected g c c' →
  marked (visited s) c'.
Proof.
  intros Hcl Hc Hconn.
  by apply (closed_under_steps_connected g (marked (visited s)) c c').
Qed.

Lemma border_inv_weaken (Done Done' : Cell → Prop) s :
  (∀ c, Done' c → Done c) → border_inv Done s → border_inv Done' s.
Proof. intros HD (? & ? & ? & HDone). split_and!; auto. Qed.

Lemma count_inv_weaken (Done Done' : Cell → Prop) s :
  (∀ c, Done' c → Done c) → count_inv Done s → count_inv Done' s.
Proof.
  intros HD (? & ? & reps & ? & ? & ? & ? & ? & ? & HDone).
  split_and!; [done..|]. exists reps. split_and!; auto.
Qed.

(** One border test-and-fill. *)
Lemma flood_if_new_border (Done : Cell → Prop) i j s :
  inb n m (i, j) → on_border n m (i, j) → border_inv Done s →
  wp (flood_if_new fuel n m i j)
     (λ _ s', border_inv (λ c, Done c ∨ c = (i, j)) s') s.
Proof.
  intros Hinb Hbord (Hbase & Hcount & Hopen & HDone).
  destruct (unvisited_land_spec i j s) as (b & Hb & Hspec); [by destruct Hbase|done|].
  unfold flood_if_new. eapply wp_bind_ok; [exact Hb|].
  destruct b.
  - destruct Hspec as [Hland Hnew].
    eapply wp_bind_ok; [reflexivity|]. fold (with_root (i, j) s).
    eapply wp_mono; [apply dfs_root; by apply base_inv_with_root|].
    intros [] s' (Hbase' & Hgr & Hroot & Hfresh). simpl in *.
    split_and!; [done| | |].
    + destruct Hgr as (_ & -> & _). done.
    + intros c [Hc|Hc]%Hfresh; [by apply Hopen|].
      exists (i, j). split; [by apply connected_sym|done].
    + intros c [Hc| ->] Hl; [|by apply Hroot].
      eapply grows_marked; [done|]. simpl. by apply HDone.
  - apply wp_ret. split_and!; try done.
    intros c [Hc| ->] Hl; [by apply HDone|by apply Hspec].
Qed.

(** Step 1 marks every border land cell, and only cells of open regions. *)
Lemma mark_border_wp s :
  border_inv (λ _, False) s →
  wp (mark_border fuel n m)
     (λ _ s', border_inv (λ c, on_border n m c) s') s.
Proof.
  intros Hinv. unfold mark_border. apply wp_bind.
  eapply wp_mono.
  { apply (wp_for_range
      (λ i s', border_inv (λ c, 0 ≤ c.1 < i ∧ (c.2 = 0 ∨ c.2 = m - 1)) s')).
    - eapply border_inv_weaken; [|exact Hinv]. simpl. lia.
    - intros i s' Hi Hinv'. apply wp_bind.
      eapply wp_mono; [eapply flood_if_new_border; [| |exact Hinv']|].
      { unfold inb; simpl; lia. }
      { unfold on_border; simpl; lia. }
      intros [] s'' Hinv''.
      eapply wp_mono; [eapply flood_if_new_border; [| |exact Hinv'']|].
      { unfold inb; simpl; lia. }
      { unfold on_border; simpl; lia. }
      intros [] s3 Hinv3. eapply border_inv_weaken; [|exact Hinv3].
      intros [ci cj]; simpl. intros [? [?|?]].
      + destruct (decide (ci = i)) as [->|?]; [|left; left; lia].
        left. right. by subst.
      + destruct (decide (ci = i)) as [->|?]; [|left; left; lia].
        right. by subst. }
  intros [] s1 Hinv1. simpl. rewrite Z.max_r in Hinv1 by lia.
  eapply wp_mono.
  { apply (wp_for_range
      (λ j s', border_inv (λ c, (0 ≤ c.1 < n ∧ (c.2 = 0 ∨ c.2 = m - 1)) ∨
                                (0 ≤ c.2 < j ∧ (c.1 = 0 ∨ c.1 = n - 1))) s')).
    - eapply border_inv_weaken; [|exact Hinv1]. simpl. intros c [?|?]; [done|lia].
    - intros j s' Hj Hinv'. apply wp_bind.
      eapply wp_mono; [eapply flood_if_new_border; [| |exact Hinv']|].
      { unfold inb; simpl; lia. }
      { unfold on_border; simpl; lia. }
      intros [] s'' Hinv''.
      eapply wp_mono; [eapply flood_if_new_border; [| |exact Hinv'']|].
      { unfold inb; simpl; lia. }
      { unfold on_border; simpl; lia. }
      intros [] s3 Hinv3. eapply border_inv_weaken; [|exact Hinv3].
      intros [ci cj]; simpl. intros [?|[? [?|?]]].
      + by left; left; left.
      + destruct (decide (cj = j)) as [->|?]; [|left; left; right; lia].
        left. right. by subst.
      + destruct (decide (cj = j)) as [->|?]; [|left; left; right; lia].
        right. by subst. }
  intros [] s2 Hinv2. simpl in Hinv2. rewrite Z.max_r in Hinv2 by lia.
  destruct Hinv2 as (? & ? & ? & HDone). split_and!; try done.
  intros [ci cj] Hb Hl. apply HDone; [|done].
  apply land_inb in Hl. unfold inb, on_border in *. simpl in *. lia.
Qed.

(** One test-fill-and-count of Step 2. *)
Lemma count_step (Done : Cell → Prop) i j s :
  inb n m (i, j) → count_inv Done s →
  wp (let* b := unvisited_land i j in
      if b then note_root i j ;; dfs fuel n m i j ;; incr_count else ret tt)
     (λ _ s', count_inv (λ c, Done c ∨ c = (i, j)) s') s.
Proof.
  intros Hinb (Hbase & Hbord & reps & Hcount & Hclosed & Hnd & Hsep & Hreps & Hcover & HDone).
  destruct (unvisited_land_spec i j s) as (b & Hb & Hspec); [by destruct Hbase|done|].
  eapply wp_bind_ok; [exact Hb|].
  destruct b.
  - destruct Hspec as [Hland Hnew].
    pose proof Hbase as (_ & _ & Hcl).
    assert (∀ r, r ∈ reps → ¬ connected g r (i, j)) as Hfar.
    { intros r Hr Hconn. apply Hnew. eapply closed_under_connected; eauto. }
    eapply wp_bind_ok; [reflexivity|]. fold (with_root (i, j) s).
    apply wp_bind.
    eapply wp_mono; [apply dfs_root; by apply base_inv_with_root|].
    intros [] s' (Hbase' & Hgr & Hroot & Hfresh). simpl in *.
    apply wp_ret. fold (with_count (count s' + 1) s').
    assert (∀ c, marked (visited s) c → marked (visited s') c) as Hmono.
    { intros c Hc. by eapply grows_marked. }
    split_and!; [by apply base_inv_with_count|simpl; auto|].
    exists ((i, j) :: reps). simpl. split_and!.
    + destruct Hgr as (_ & -> & _). simpl. lia.
    + constructor; [|done]. apply closed_cell_alt. split; [done|].
      intros b Hconn Hb'. apply Hnew.
      eapply closed_under_connected; [done| |by apply connected_sym].
      apply Hbord; [by eapply connected_land_r|done].
    + constructor; [|done]. intros Hin. apply (Hfar _ Hin).
      apply connected_refl. done.
    + intros c c' [->|Hc]%elem_of_cons [->|Hc']%elem_of_cons Hconn; [done| | |by apply Hsep].
      * destruct (Hfar _ Hc'). by apply connected_sym.
      * by destruct (Hfar _ Hc).
    + intros r [->|Hr]%elem_of_cons; [by apply Hroot|]. by apply Hmono, Hreps.
    + intros c [Hc|Hc]%Hfresh.
      * destruct (Hcover c Hc) as [?|(r & Hr & ?)]; [by left|].
        right. exists r. split; [|done]. by apply elem_of_cons; right.
      * right. exists (i, j). split; [|done]. by apply elem_of_cons; left.
    + intros c [Hc| ->] Hl; [|by apply Hroot]. by apply Hmono, HDone.
  - apply wp_ret. split_and!; [done..|].
    exists reps. split_and!; try done.
    intros c [Hc| ->] Hl; [by apply HDone|by apply Hspec].
Qed.

(** Step 2 tries every interior cell. *)
Lemma count_islands_wp s :
  count_inv (λ _, False) s →
  wp (count_islands fuel n m) (λ _ s', count_inv (interior n m) s') s.
Proof.
  intros Hinv. unfold count_islands.
  eapply wp_mono.
  { apply (wp_for_range
      (λ i s', count_inv (λ c, 1 ≤ c.1 < i ∧ 1 ≤ c.2 < m - 1) s')).
    - eapply count_inv_weaken; [|exact Hinv]. simpl. lia.
    - intros i s' Hi Hinv'.
      eapply wp_mono.
      { apply (wp_for_range
          (λ j s'', count_inv (λ c, (1 ≤ c.1 < i ∧ 1 ≤ c.2 < m - 1) ∨
                                    (c.1 = i ∧ 1 ≤ c.2 < j)) s'')).
        - eapply count_inv_weaken; [|exact Hinv']. simpl. intros c [?|?]; [done|lia].
        - intros j s'' Hj Hinv''.
          eapply wp_mono; [eapply count_step; [|exact Hinv'']|].
          { unfold inb; simpl; lia. }
          intros [] s3 Hinv3. eapply count_inv_weaken; [|exact Hinv3].
          intros [ci cj]; simpl. intros [?|[-> ?]]; [by left; left|].
          destruct (decide (cj = j)) as [->|?]; [by right|].
          left. right. lia. }
      intros [] s'' Hinv''. eapply count_inv_weaken; [|exact Hinv''].
      intros [ci cj]; simpl. intros [? ?].
      destruct (decide (ci = i)) as [->|?]; [right; lia|left; lia]. }
  intros [] s' Hinv'. eapply count_inv_weaken; [|exact Hinv'].
  intros [ci cj]. unfold interior. simpl. lia.
Qed.

(** The initial store satisfies the invariant of Step 1. *)
Lemma init_store_inv : border_inv (λ _, False) (init_store g n m).
Proof.
  assert (∀ c, ¬ marked (replicate (Z.to_nat n) (replicate (Z.to_nat m) 0)) c) as Hnone.
  { intros c (x & Hx%cell_at_replicate & Hne). done. }
  assert (shape (replicate (Z.to_nat n) (replicate (Z.to_nat m) 0)) n m) as Hsh
    by (apply shape_replicate; lia).
  unfold border_inv, base_inv, wfs, closed_under. simpl. split_and!; try done.
  - constructor; [|done]. intros i j x Hx%cell_at_replicate Hne. done.
  - pose proof (zeros2_le _ _ _ Hsh). lia.
  - intros x y Hx. by destruct (Hnone x).
  - intros c Hc. by destruct (Hnone c).
Qed.

(** What the body computes, and in which state it ends. *)
Lemma closedIsland_body_wp :
  wp (closedIsland_body fuel n m)
     (λ r s', r = count s' ∧ count_inv (interior n m) s')
     (init_store g n m).
Proof.
  unfold closedIsland_body. apply wp_bind.
  eapply wp_mono; [apply mark_border_wp, init_store_inv|].
  intros [] s1 (Hbase & Hcount & Hopen & HDone). simpl.
  apply wp_bind. eapply wp_mono.
  { apply count_islands_wp. split_and!; [done|auto|].
    exists []. split_and!; try done.
    - constructor.
    - intros c c' Hc. by apply elem_of_nil in Hc.
    - intros r Hr. by apply elem_of_nil in Hr.
    - intros c Hc. left. by apply Hopen. }
  intros [] s2 Hinv. simpl. by apply wp_ret.
Qed.

(** The invariant at the end gives the count of the closed islands. *)
Lemma count_inv_final s :
  count_inv (interior n m) s → closed_island_count g (count s).
Proof.
  intros (Hbase & Hbord & reps & Hcount & Hclosed & Hnd & Hsep & Hreps & Hcover & HDone).
  exists reps. split_and!; try done.
  intros c Hc. pose proof Hc as [Hl Hnb]%closed_cell_alt.
  assert (marked (visited s) c) as Hm.
  { apply HDone; [|done]. pose proof (land_inb c Hl) as Hinb.
    pose proof (Hnb c (connected_refl g c Hl)) as Hc'.
    unfold interior, on_border, inb in *. lia. }
  destruct (Hcover c Hm) as [(b & Hconn & Hb)|?]; [|done].
  by destruct (Hnb b Hconn).
Qed.

(** ** What the passes leave in [visited] and in the record of roots *)

Lemma wp_conj {A} (c : M A) (Q Q' : A → Store → Prop) s :
  wp c Q s → wp c Q' s → wp c (λ a s', Q a s' ∧ Q' a s') s.
Proof. unfold wp. destruct (c s) as [[a s']| |]; auto. Qed.

Lemma wp_for_range_const (P : Store → Prop) (body : Z → M unit) lo hi s :
  P s →
  (∀ i s', lo ≤ i < hi → P s' → wp (body i) (λ _ s'', P s'') s') →
  wp (for_range lo hi body) (λ _ s', P s') s.
Proof. intros HP Hbody. by apply (wp_for_range (λ _, P)). Qed.

Lemma init_store_unmarked c : ¬ marked (visited (init_store g n m)) c.
Proof. intros (x & Hx%cell_at_replicate & Hne). done. Qed.

(** A flood fill on the fresh matrix marks the region of its root, and
    nothing else. *)
Lemma dfs_fresh i j :
  wp (dfs fuel n m i j)
     (λ _ s', grid s' = g ∧ count s' = 0 ∧
              ∀ c, marked (visited s') c ↔ connected g (i, j) c)
     (init_store g n m).
Proof.
  destruct init_store_inv as (Hbase & _).
  eapply wp_mono; [by apply dfs_root|].
  intros [] s' (Hbase' & Hgr & Hroot & Hfresh). split_and!.
  - by destruct Hbase' as ((? & _) & _).
  - by destruct Hgr as (_ & -> & _).
  - intros c. split.
    + intros [Hc|Hc]%Hfresh; [by destruct (init_store_unmarked c)|done].
    + intros Hconn. destruct Hbase' as (_ & _ & Hcl).
      eapply closed_under_connected; [done| |done].
      by eapply Hroot, connected_land_l.
Qed.

(** Step 1 alone marks the cells of the open regions, and nothing else. *)
Lemma mark_border_open :
  wp (mark_border fuel n m)
     (λ _ s', grid s' = g ∧ count s' = 0 ∧
              ∀ c, marked (visited s') c ↔ open_cell c)
     (init_store g n m).
Proof.
  eapply wp_mono; [apply mark_border_wp, init_store_inv|].
  intros [] s' (Hbase & Hcount & Hopen & HDone). split_and!; [|done|].
  - by destruct Hbase as ((? & _) & _).
  - intros c. split; [apply Hopen|].
    intros (b & Hconn & Hb). destruct Hbase as (_ & _ & Hcl).
    eapply closed_under_connected; [done| |by apply connected_sym].
    apply HDone; [done|]. by eapply connected_land_r.
Qed.

(** At the end of Step 2 every land cell is marked. *)
Lemma count_inv_all_land s c :
  count_inv (interior n m) s → land g c → marked (visited s) c.
Proof.
  intros (_ & Hbord & reps & _ & _ & _ & _ & _ & _ & HDone) Hl.
  pose proof (land_inb c Hl) as Hinb.
  destruct (decide (interior n m c)) as [Hint|Hint]; [by apply HDone|].
  apply Hbord; [done|]. unfold interior, on_border, inb in *. lia.
Qed.

(** So the final [visited] is the grid with 0 and 1 exchanged. *)
Lemma count_inv_visited s i j x :
  count_inv (interior n m) s →
  cell_at g i j = Some x → cell_at (visited s) i j = Some (1 - x).
Proof.
  intros Hinv Hx. pose proof Hinv as ((Hwf & _) & _).
  pose proof (wfs_marks_only_land s Hwf) as Hmol.
  destruct Hwf as (_ & Hsh & _).
  destruct (cell_at_is_Some _ n m i j Hsh (cell_at_inb g n m i j x g_shape Hx)) as [v Hv].
  destruct (g_binary _ _ _ Hx) as [-> | ->].
  - destruct (count_inv_all_land s (i, j) Hinv Hx) as (v' & Hv' & Hne).
    simpl in Hv'. by destruct (Hmol _ _ _ Hv' Hne) as [-> _].
  - destruct (decide (v = 0)) as [->|Hne]; [done|].
    destruct (Hmol _ _ _ Hv Hne) as [_ Hg0]. congruence.
Qed.

(** The roots noted so far: each is marked, no two lie in one region, every
    marked cell lies in the region of one of them. *)
Definition roots_core (s : Store) : Prop :=
  (∀ r, r ∈ roots s → marked (visited s) r) ∧
  NoDup (roots s) ∧
  (∀ r r', r ∈ roots s → r' ∈ roots s → connected g r r' → r = r') ∧
  (∀ c, marked (visited s) c → ∃ r, r ∈ roots s ∧ connected g r c).

(** The roots of Step 2 (newest first) are closed cells, as many as [count];
    before them come the roots of Step 1, which are border cells. *)
Definition roots_split (s : Store) : Prop :=
  ∃ rc ro, roots s = rc ++ ro ∧ Z.of_nat (length rc) = count s ∧
           Forall (closed_cell g) rc ∧ Forall (on_border n m) ro.

Lemma root_fill_roots i j s :
  base_inv s → roots_core s → land g (i, j) → ¬ marked (visited s) (i, j) →
  wp (dfs fuel n m i j)
     (λ _ s', roots_core s' ∧ count s' = count s ∧ roots s' = (i, j) :: roots s)
     (with_root (i, j) s).
Proof.
  intros Hbase (Hmarked & Hnd & Hsep & Hcover) Hland Hnew.
  pose proof Hbase as (_ & _ & Hcl).
  assert (∀ r, r ∈ roots s → ¬ connected g r (i, j)) as Hfar.
  { intros r Hr Hconn. apply Hnew. eapply closed_under_connected; eauto. }
  eapply wp_mono; [apply dfs_root; by apply base_inv_with_root|].
  intros [] s' (Hbase' & Hgr & Hroot & Hfresh). simpl in *.
  pose proof Hgr as (_ & Hcount & Hroots & _). simpl in *.
  split_and!; [|done..]. unfold roots_core. rewrite Hroots. split_and!.
  - intros r [->|Hr]%elem_of_cons; [by apply Hroot|].
    eapply grows_marked; [done|]. simpl. by apply Hmarked.
  - constructor; [|done]. intros Hin. apply (Hfar _ Hin). by apply connected_refl.
  - intros r r' [->|Hr]%elem_of_cons [->|Hr']%elem_of_cons Hconn; [done| | |by apply Hsep].
    + destruct (Hfar _ Hr'). by apply connected_sym.
    + by destruct (Hfar _ Hr).
  - intros c [Hc|Hc]%Hfresh.
    + destruct (Hcover c Hc) as (r & Hr & ?). exists r. split; [|done].
      by apply elem_of_cons; right.
    + exists (i, j). split; [|done]. by apply elem_of_cons; left.
Qed.

Lemma flood_if_new_roots i j s :
  inb n m (i, j) → on_border n m (i, j) →
  border_inv (λ _, False) s → roots_core s ∧ roots_split s →
  wp (flood_if_new fuel n m i j) (λ _ s', roots_core s' ∧ roots_split s') s.
Proof.
  intros Hinb Hbord (Hbase & Hcount & _) [Hcore (rc & ro & Hroots & Hlen & Hrc & Hro)].
  destruct (unvisited_land_spec i j s) as (b & Hb & Hspec); [by destruct Hbase|done|].
  unfold flood_if_new. eapply wp_bind_ok; [exact Hb|].
  destruct b; [|apply wp_ret; split; [done|by exists rc, ro]].
  destruct Hspec as [Hland Hnew].
  eapply wp_bind_ok; [reflexivity|]. fold (with_root (i, j) s).
  eapply wp_mono; [by apply root_fill_roots|].
  intros [] s' (Hcore' & Hcount' & Hroots'). split; [done|].
  assert (rc = []) as -> by (apply length_zero_iff_nil; lia).
  exists [], ((i, j) :: ro). rewrite Hroots', Hroots. simpl.
  split_and!; [done|lia|done|by constructor].
Qed.

Lemma count_step_roots i j s :
  inb n m (i, j) →
  count_inv (λ _, False) s → roots_core s ∧ roots_split s →
  wp (let* b := unvisited_land i j in
      if b then note_root i j ;; dfs fuel n m i j ;; incr_count else ret tt)
     (λ _ s', roots_core s' ∧ roots_split s') s.
Proof.
  intros Hinb (Hbase & Hbord & _) [Hcore (rc & ro & Hroots & Hlen & Hrc & Hro)].
  destruct (unvisited_land_spec i j s) as (b & Hb & Hspec); [by destruct Hbase|done|].
  eapply wp_bind_ok; [exact Hb|].
  destruct b; [|apply wp_ret; split; [done|by exists rc, ro]].
  destruct Hspec as [Hland Hnew]. pose proof Hbase as (_ & _ & Hcl).
  eapply wp_bind_ok; [reflexivity|]. fold (with_root (i, j) s).
  apply wp_bind. eapply wp_mono; [by apply root_fill_roots|].
  intros [] s' (Hcore' & Hcount' & Hroots'). apply wp_ret. simpl.
  split; [done|].
  exists ((i, j) :: rc), ro. rewrite Hroots', Hroots. simpl.
  split_and!; [done|lia| |done].
  constructor; [|done]. apply closed_cell_alt. split; [done|].
  intros b Hconn Hb'. apply Hnew.
  eapply closed_under_connected; [done| |by apply connected_sym].
  apply Hbord; [by eapply connected_land_r|done].
Qed.

Lemma mark_border_roots s :
  border_inv (λ _, False) s → roots_core s ∧ roots_split s →
  wp (mark_border fuel n m) (λ _ s', roots_core s' ∧ roots_split s') s.
Proof.
  intros Hinv Hroots.
  pose (P := λ s0, border_inv (λ _, False) s0 ∧ (roots_core s0 ∧ roots_split s0)).
  assert (∀ i j s0, inb n m (i, j) → on_border n m (i, j) → P s0 →
            wp (flood_if_new fuel n m i j) (λ _ s', P s') s0) as Hstep.
  { intros i j s0 Hinb Hbord [Hb Hr]. apply wp_conj; [|by apply flood_if_new_roots].
    eapply wp_mono; [by apply flood_if_new_border|].
    intros [] s' Hb'. eapply border_inv_weaken; [|exact Hb']. done. }
  apply (wp_mono _ (λ _ s', P s')); [|by intros [] s' [_ ?]].
  unfold mark_border. apply wp_bind.
  eapply wp_mono.
  { apply (wp_for_range_const P); [exact (conj Hinv Hroots)|].
    intros i s0 Hi HP. apply wp_bind.
    eapply wp_mono; [apply Hstep; [| |exact HP]|].
    { unfold inb; simpl; lia. }
    { unfold on_border; simpl; lia. }
    intros [] s1 HP1. apply Hstep; [| |exact HP1].
    - unfold inb; simpl; lia.
    - unfold on_border; simpl; lia. }
  intros [] s1 HP1. simpl.
  apply (wp_for_range_const P); [done|].
  intros j s0 Hj HP. apply wp_bind.
  eapply wp_mono; [apply Hstep; [| |exact HP]|].
  { unfold inb; simpl; lia. }
  { unfold on_border; simpl; lia. }
  intros [] s2 HP2. apply Hstep; [| |exact HP2].
  - unfold inb; simpl; lia.
  - unfold on_border; simpl; lia.
Qed.

Lemma count_islands_roots s :
  count_inv (λ _, False) s → roots_core s ∧ roots_split s →
  wp (count_islands fuel n m) (λ _ s', roots_core s' ∧ roots_split s') s.
Proof.
  intros Hinv Hroots.
  pose (P := λ s0, count_inv (λ _, False) s0 ∧ (roots_core s0 ∧ roots_split s0)).
  apply (wp_mono _ (λ _ s', P s')); [|by intros [] s' [_ ?]].
  unfold count_islands.
  apply (wp_for_range_const P); [exact (conj Hinv Hroots)|].
  intros i s0 Hi HP. apply (wp_for_range_const P); [done|].
  intros j s1 Hj [Hc Hr]. apply wp_conj; [|apply count_step_roots; [|done..]].
  - eapply wp_mono; [apply count_step; [|exact Hc]|].
    { unfold inb; simpl; lia. }
    intros [] s' Hc'. eapply count_inv_weaken; [|exact Hc']. done.
  - unfold inb; simpl; lia.
Qed.

(** The end of the body, with the record of roots. *)
Lemma closedIsland_body_roots :
  wp (closedIsland_body fuel n m)
     (λ r s', r = count s' ∧ count_inv (interior n m) s' ∧
              roots_core s' ∧ roots_split s')
     (init_store g n m).
Proof.
  assert (roots_core (init_store g n m) ∧ roots_split (init_store g n m)) as Hr0.
  { split.
    - split_and!; simpl.
      + intros r Hr. by apply elem_of_nil in Hr.
      + constructor.
      + intros r r' Hr. by apply elem_of_nil in Hr.
      + intros c Hc. by destruct (init_store_unmarked c).
    - exists [], []. by split_and!. }
  unfold closedIsland_body. apply wp_bind.
  eapply wp_mono.
  { apply wp_conj; [apply mark_border_wp, init_store_inv|].
    apply mark_border_roots; [apply init_store_inv|exact Hr0]. }
  intros [] s1 [(Hbase & Hcount & Hopen & HDone) Hr1]. simpl.
  assert (count_inv (λ _, False) s1) as Hc1.
  { split_and!; [done|auto|].
    exists []. split_and!; try done.
    - constructor.
    - intros c c' Hc. by apply elem_of_nil in Hc.
    - intros r Hr. by apply elem_of_nil in Hr.
    - intros c Hc. left. by apply Hopen. }
  apply wp_bind. eapply wp_mono.
  { apply wp_conj; [by apply count_islands_wp|by apply count_islands_roots]. }
  intros [] s2 [Hinv [Hcore Hsplit]]. simpl. by apply wp_ret.
Qed.


(** ** How often [visited] is written *)

(** Loops with one more invariant [E], kept by every flood fill a loop
    starts and by [count++]. *)
Section extra_invariant.
Variable E : Store → Prop.
Hypothesis E_fill : ∀ i j s,
  base_inv s → E s → land g (i, j) → ¬ marked (visited s) (i, j) →
  wp (dfs fuel n m i j) (λ _ s', E s') (with_root (i, j) s).
Hypothesis E_count : ∀ s, E s → E (with_count (count s + 1) s).

Lemma flood_if_new_extra i j s :
  inb n m (i, j) → base_inv s → E s →
  wp (flood_if_new fuel n m i j) (λ _ s', E s') s.
Proof.
  intros Hinb Hbase HE.
  destruct (unvisited_land_spec i j s) as (b & Hb & Hspec); [by destruct Hbase|done|].
  unfold flood_if_new. eapply wp_bind_ok; [exact Hb|].
  destruct b; [|by apply wp_ret].
  destruct Hspec as [Hland Hnew].
  eapply wp_bind_ok; [reflexivity|]. fold (with_root (i, j) s).
  by apply E_fill.
Qed.

Lemma count_step_extra i j s :
  inb n m (i, j) → base_inv s → E s →
  wp (let* b := unvisited_land i j in
      if b then note_root i j ;; dfs fuel n m i j ;; incr_count else ret tt)
     (λ _ s', E s') s.
Proof.
  intros Hinb Hbase HE.
  destruct (unvisited_land_spec i j s) as (b & Hb & Hspec); [by destruct Hbase|done|].
  eapply wp_bind_ok; [exact Hb|].
  destruct b; [|by apply wp_ret].
  destruct Hspec as [Hland Hnew].
  eapply wp_bind_ok; [reflexivity|]. fold (with_root (i, j) s).
  apply wp_bind. eapply wp_mono; [by apply E_fill|].
  intros [] s' HE'. apply wp_ret. by apply E_count.
Qed.

Lemma mark_border_extra s :
  border_inv (λ _, False) s → E s →
  wp (mark_border fuel n m) (λ _ s', E s') s.
Proof.
  intros Hinv HE.
  pose (P := λ s0, border_inv (λ _, False) s0 ∧ E s0).
  assert (∀ i j s0, inb n m (i, j) → on_border n m (i, j) → P s0 →
            wp (flood_if_new fuel n m i j) (λ _ s', P s') s0) as Hstep.
  { intros i j s0 Hinb Hbord [Hb He]. apply wp_conj.
    - eapply wp_mono; [by apply flood_if_new_border|].
      intros [] s' Hb'. eapply border_inv_weaken; [|exact Hb']. done.
    - apply flood_if_new_extra; [done| |done]. by destruct Hb. }
  apply (wp_mono _ (λ _ s', P s')); [|by intros [] s' [_ ?]].
  unfold mark_border. apply wp_bind.
  eapply wp_mono.
  { apply (wp_for_range_const P); [exact (conj Hinv HE)|].
    intros i s0 Hi HP. apply wp_bind.
    eapply wp_mono; [apply Hstep; [| |exact HP]|].
    { unfold inb; simpl; lia. }
    { unfold on_border; simpl; lia. }
    intros [] s1 HP1. apply Hstep; [| |exact HP1].
    - unfold inb; simpl; lia.
    - unfold on_border; simpl; lia. }
  intros [] s1 HP1. simpl.
  apply (wp_for_range_const P); [done|].
  intros j s0 Hj HP. apply wp_bind.
  eapply wp_mono; [apply Hstep; [| |exact HP]|].
  { unfold inb; simpl; lia. }
  { unfold on_border; simpl; lia. }
  intros [] s2 HP2. apply Hstep; [| |exact HP2].
  - unfold inb; simpl; lia.
  - unfold on_border; simpl; lia.
Qed.

Lemma count_islands_extra s :
  count_inv (λ _, False) s → E s →
  wp (count_islands fuel n m) (λ _ s', E s') s.
Proof.
  intros Hinv HE.
  pose (P := λ s0, count_inv (λ _, False) s0 ∧ E s0).
  apply (wp_mono _ (λ _ s', P s')); [|by intros [] s' [_ ?]].
  unfold count_islands.
  apply (wp_for_range_const P); [exact (conj Hinv HE)|].
  intros i s0 Hi HP. apply (wp_for_range_const P); [done|].
  intros j s1 Hj [Hc He].
  assert (inb n m (i, j)) as Hinb by (unfold inb; simpl; lia).
  apply wp_conj.
  - eapply wp_mono; [by apply count_step|].
    intros [] s' Hc'. eapply count_inv_weaken; [|exact Hc']. done.
  - apply count_step_extra; [done| |done]. by destruct Hc.
Qed.

Lemma closedIsland_body_extra :
  E (init_store g n m) →
  wp (closedIsland_body fuel n m)
     (λ r s', r = count s' ∧ count_inv (interior n m) s' ∧ E s')
     (init_store g n m).
Proof.
  intros HE0. unfold closedIsland_body. apply wp_bind.
  eapply wp_mono.
  { apply wp_conj; [apply mark_border_wp, init_store_inv|].
    apply mark_border_extra; [apply init_store_inv|exact HE0]. }
  intros [] s1 [(Hbase & Hcount & Hopen & HDone) HE1]. simpl.
  assert (count_inv (λ _, False) s1) as Hc1.
  { split_and!; [done|auto|].
    exists []. split_and!; try done.
    - constructor.
    - intros c c' Hc. by apply elem_of_nil in Hc.
    - intros r Hr. by apply elem_of_nil in Hr.
    - intros c Hc. left. by apply Hopen. }
  apply wp_bind. eapply wp_mono.
  { apply wp_conj; [by apply count_islands_wp|by apply count_islands_extra]. }
  intros [] s2 [Hinv HE2]. simpl. by apply wp_ret.
Qed.
End extra_invariant.

(** A flood fill adds one entry to [history] for each zero of [visited] it
    overwrites. *)
Lemma dfs_writes f : ∀ i j s,
  wfs s → (zeros2 (visited s) < f)%nat →
  wp (dfs f n m i j)
     (λ _ s', (length (history s') + zeros2 (visited s') =
               length (history s) + zeros2 (visited s))%nat) s.
Proof.
  induction f as [|f IH]; intros i j s Hwf Hfuel; [lia|].
  pose proof Hwf as (Hg & Hsh & _).
  simpl.
  destruct ((i <? 0) || (j <? 0) || (i >=? n) || (j >=? m)) eqn:Hguard;
    [by apply wp_ret|].
  assert (inb n m (i, j)) as Hinb by (unfold inb; simpl; lia).
  destruct (cell_at_is_Some g n m i j g_shape Hinb) as [x Hx].
  eapply wp_bind_ok; [apply read_grid_eq; by rewrite Hg|].
  destruct (Z.eqb_spec x 1) as [->|Hx1]; [by apply wp_ret|].
  assert (x = 0) as -> by (destruct (g_binary _ _ _ Hx); done).
  destruct (cell_at_is_Some _ n m i j Hsh Hinb) as [v Hv].
  eapply wp_bind_ok; [by apply read_visited_eq|].
  destruct (Z.eqb_spec v 0) as [->|Hv0]; simpl; [|by apply wp_ret].
  destruct (mark_visited_spec s i j Hwf Hx Hv) as (s1 & Hs1 & Hgr1 & _ & _ & Hz1).
  eapply wp_bind_ok; [exact Hs1|].
  assert (length (history s1) = S (length (history s))) as Hlen1.
  { unfold mark_visited in Hs1. destruct (cell_set (visited s) i j 1); by simplify_eq. }
  assert (∀ i' j' sa,
            grows s1 sa →
            (length (history sa) + zeros2 (visited sa) =
             length (history s1) + zeros2 (visited s1))%nat →
            wp (dfs f n m i' j')
               (λ _ sb, grows s1 sb ∧
                        (length (history sb) + zeros2 (visited sb) =
                         length (history s1) + zeros2 (visited s1))%nat) sa)
    as Hcall.
  { intros i' j' sa Hgra Hlena.
    assert (zeros2 (visited sa) < f)%nat as Hfa
      by (destruct Hgra as (_ & _ & _ & ? & _); lia).
    eapply wp_mono.
    { apply wp_conj; [apply (dfs_wp f i' j' sa)|apply (IH i' j' sa)];
        (by eapply grows_wfs) || done. }
    intros [] sb [(Hgrb & _) Hlenb]. split; [by eapply grows_trans|lia]. }
  apply wp_bind. eapply wp_mono.
  { apply Hcall; [by eapply grows_refl, grows_wfs|done]. }
  intros [] s2 [Hgr2 Hlen2]. apply wp_bind. eapply wp_mono; [by apply Hcall|].
  intros [] s3 [Hgr3 Hlen3]. apply wp_bind. eapply wp_mono; [by apply Hcall|].
  intros [] s4 [Hgr4 Hlen4]. eapply wp_mono; [by apply Hcall|].
  intros [] s5 [Hgr5 Hlen5]. lia.
Qed.

(** Entries of [history] beyond the first, plus zeros left in [visited]:
    the number of cells. *)
Definition writes_inv (s : Store) : Prop :=
  Z.of_nat (length (history s)) + Z.of_nat (zeros2 (visited s)) = 1 + n * m.

Lemma zeros_replicate k : zeros (replicate k 0) = k.
Proof.
  unfold zeros. induction k as [|k IH]; [done|].
  rewrite replicate_S, filter_cons_True by done. simpl. by rewrite IH.
Qed.

Lemma zeros2_replicate k l : zeros2 (replicate k (replicate l 0)) = (k * l)%nat.
Proof.
  unfold zeros2. induction k as [|k IH]; [done|].
  csimpl. by rewrite IH, zeros_replicate.
Qed.

Lemma writes_inv_init : writes_inv (init_store g n m).
Proof.
  unfold writes_inv. simpl. rewrite zeros2_replicate. nia.
Qed.

Lemma closedIsland_body_writes :
  wp (closedIsland_body fuel n m)
     (λ r s', r = count s' ∧ count_inv (interior n m) s' ∧ writes_inv s')
     (init_store g n m).
Proof.
  apply closedIsland_body_extra; [| |apply writes_inv_init].
  - intros i j s Hbase HE Hland Hnew.
    destruct (base_inv_with_root (i, j) s Hbase Hland) as (Hwf & Hfuel & _).
    eapply wp_mono; [by apply (dfs_writes fuel i j (with_root (i, j) s))|].
    intros [] s' Hlen. unfold writes_inv in *. simpl in *. lia.
  - intros s HE. exact HE.
Qed.

(** A row and its complement have as many zeros together as entries. *)
Lemma zeros_flip (r r' : list Z) :
  length r = length r' →
  (∀ j x, r !! j = Some x → (x = 0 ∨ x = 1) ∧ r' !! j = Some (1 - x)) →
  (zeros r + zeros r')%nat = length r.
Proof.
  unfold zeros. revert r'. induction r as [|x r IH]; intros [|y r'] Hlen Hflip;
    simplify_eq/=; [done|].
  destruct (Hflip 0%nat x eq_refl) as [Hx [= ->]].
  pose proof (IH r' Hlen (λ j, Hflip (S j))) as IH'.
  destruct Hx as [-> | ->].
  - rewrite filter_cons_True by done. rewrite (filter_cons_False _ (1 - 0)) by done.
    simpl. lia.
  - rewrite filter_cons_False by done. rewrite (filter_cons_True _ (1 - 1)) by done.
    simpl. lia.
Qed.

Lemma zeros2_flip (v v' : Grid) (l : nat) :
  length v = length v' →
  Forall (λ r, length r = l) v → Forall (λ r, length r = l) v' →
  (∀ i j x r r', v !! i = Some r → v' !! i = Some r' → r !! j = Some x →
                 (x = 0 ∨ x = 1) ∧ r' !! j = Some (1 - x)) →
  (zeros2 v + zeros2 v')%nat = (length v * l)%nat.
Proof.
  unfold zeros2. revert v'.
  induction v as [|r v IH]; intros [|r' v'] Hlen Hv Hv' Hflip; simplify_eq/=; [done|].
  apply Forall_cons in Hv as [Hr Hv]. apply Forall_cons in Hv' as [Hr' Hv'].
  pose proof (zeros_flip r r' ltac:(lia) (λ j x, Hflip 0%nat j x r r' eq_refl eq_refl)).
  pose proof (IH v' Hlen Hv Hv' (λ i, Hflip (S i))).
  csimpl in *. lia.
Qed.

(** At the end, [visited] has been written once for each land cell. *)
Lemma writes_final s :
  count_inv (interior n m) s → writes_inv s →
  Z.of_nat (length (history s)) = 1 + Z.of_nat (zeros2 g).
Proof.
  intros Hinv Hw. pose proof Hinv as ((Hwf & _) & _).
  destruct Hwf as (_ & Hsh & _).
  assert ((zeros2 g + zeros2 (visited s))%nat = (length g * Z.to_nat m)%nat) as Hflip.
  { destruct g_shape as [Hgn Hgm]. destruct Hsh as [Hvn Hvm].
    apply zeros2_flip.
    - lia.
    - eapply Forall_impl; [exact Hgm|]. simpl. lia.
    - eapply Forall_impl; [exact Hvm|]. simpl. lia.
    - intros i j x r r' Hr Hr' Hx.
      assert (cell_at g (Z.of_nat i) (Z.of_nat j) = Some x) as Hc.
      { apply cell_at_Some. exists r. rewrite !Nat2Z.id. split_and!; try done; lia. }
      split; [by eapply g_binary|].
      apply (count_inv_visited s _ _ _ Hinv) in Hc.
      apply cell_at_Some in Hc as (r'' & _ & Hr'' & _ & Hx').
      rewrite !Nat2Z.id in *. by simplify_eq. }
  unfold writes_inv in Hw. destruct g_shape as [Hgn _]. nia.
Qed.

End flood.

(** ** The number of closed islands is determined by the grid *)

Lemma closed_island_reps_le (g : Grid) (reps1 reps2 : list Cell) :
  Forall (closed_cell g) reps1 →
  NoDup reps1 →
  (∀ c c', c ∈ reps1 → c' ∈ reps1 → connected g c c' → c = c') →
  (∀ c, closed_cell g c → ∃ r, r ∈ reps2 ∧ connected g r c) →
  (length reps1 ≤ length reps2)%nat.
Proof.
  intros Hclosed Hnd Hsep Hcover.
  assert (∃ l2, Forall2 (λ c r, r ∈ reps2 ∧ connected g r c) reps1 l2) as [l2 Hl2].
  { clear Hnd Hsep. induction Hclosed as [|c l Hc _ [l2 IH]]; [by exists []|].
    destruct (Hcover c Hc) as (r & Hr & Hconn).
    exists (r :: l2). by constructor. }
  rewrite (Forall2_length _ _ _ Hl2).
  apply submseteq_length, NoDup_submseteq.
  - apply NoDup_alt. intros a b r Ha Hb.
    destruct (Forall2_lookup_r _ _ _ _ _ Hl2 Ha) as (c & Hc & _ & Hrc).
    destruct (Forall2_lookup_r _ _ _ _ _ Hl2 Hb) as (c' & Hc' & _ & Hrc').
    assert (c = c') as <-.
    { apply Hsep; [by eapply list_elem_of_lookup_2..|].
      eapply connected_trans; [by apply connected_sym|done]. }
    by eapply NoDup_lookup.
  - intros r (a & Ha)%list_elem_of_lookup.
    by destruct (Forall2_lookup_r _ _ _ _ _ Hl2 Ha) as (c & _ & ? & _).
Qed.

Lemma closed_island_count_unique (g : Grid) (k k' : Z) :
  closed_island_count g k → closed_island_count g k' → k = k'.
Proof.
  intros (reps & <- & Hc & Hnd & Hsep & Hcov) (reps' & <- & Hc' & Hnd' & Hsep' & Hcov').
  pose proof (closed_island_reps_le g reps reps' Hc Hnd Hsep Hcov').
  pose proof (closed_island_reps_le g reps' reps Hc' Hnd' Hsep' Hcov).
  lia.
Qed.

(** ** Valid grids *)

Lemma valid_grid_inv (g : Grid) :
  valid_grid g = true →
  1 ≤ nrows g ∧ 1 ≤ ncols g ∧
  shape g (nrows g) (ncols g) ∧
  (∀ i j x, cell_at g i j = Some x → x = 0 ∨ x = 1) ∧
  ∃ r0, vec_at g 0 = Some r0 ∧ Z.of_nat (length r0) = ncols g.
Proof.
  unfold valid_grid, nrows, ncols. destruct g as [|r0 g']; [done|].
  intros [[Hlen Hrows]%andb_prop Hbin]%andb_prop.
  apply Is_true_true, forallb_True in Hrows, Hbin.
  apply negb_true_iff, Nat.eqb_neq in Hlen. simpl.
  split_and!; [lia|lia| | |by exists r0].
  - split; [done|]. eapply Forall_impl; [exact Hrows|].
    intros r Hr%Is_true_true%Nat.eqb_eq. simpl in Hr. lia.
  - intros i j x (r & _ & Hr & _ & Hx)%cell_at_Some.
    rewrite Forall_lookup in Hbin. specialize (Hbin _ _ Hr).
    apply forallb_True in Hbin. rewrite Forall_lookup in Hbin.
    specialize (Hbin _ _ Hx). apply Is_true_true, orb_prop in Hbin. lia.
Qed.

Lemma enough_fuel_bound (g : Grid) :
  nrows g * ncols g < Z.of_nat (enough_fuel g).
Proof. unfold enough_fuel, nrows, ncols. lia. Qed.

(** The run on a valid grid, with any budget above the number of cells:
    it finishes, and its final store satisfies the invariant of Step 2 for
    the whole interior. *)
Lemma closedIsland_run_spec (g : Grid) (fuel : nat) :
  valid_grid g = true →
  nrows g * ncols g < Z.of_nat fuel →
  ∃ s', closedIsland_run fuel g = Ok (count s', s') ∧
        count_inv g (nrows g) (ncols g) fuel (interior (nrows g) (ncols g)) s'.
Proof.
  intros (Hn & Hm & Hsh & Hbin & r0 & Hr0 & Hlen)%valid_grid_inv Hfuel.
  pose proof (closedIsland_body_wp g _ _ Hsh Hbin Hn Hm fuel Hfuel) as Hwp.
  apply wp_ok in Hwp as (r & s' & Hrun & -> & Hinv).
  exists s'. split; [|done].
  unfold closedIsland_run. rewrite Hr0, Hlen. exact Hrun.
Qed.

Lemma closedIsland_spec (g : Grid) :
  valid_grid g = true →
  ∃ s', closedIsland_run (enough_fuel g) g = Ok (count s', s') ∧
        closedIsland g = Ok (count s') ∧
        count_inv g (nrows g) (ncols g) (enough_fuel g)
                  (interior (nrows g) (ncols g)) s'.
Proof.
  intros Hv.
  destruct (closedIsland_run_spec g _ Hv (enough_fuel_bound g)) as (s' & Hrun & Hinv).
  exists s'. split_and!; [done| |done].
  unfold closedIsland. by rewrite Hrun.
Qed.

(** ** A larger budget changes nothing *)

(** Whatever [c] returns, [c'] returns too. *)
Definition le_ok {A : Type} (c c' : M A) : Prop :=
  ∀ s r, c s = Ok r → c' s = Ok r.

Lemma le_ok_refl {A} (c : M A) : le_ok c c.
Proof. by intros s r. Qed.

Lemma le_ok_bind {A B} (c c' : M A) (k k' : A → M B) :
  le_ok c c' → (∀ a, le_ok (k a) (k' a)) →
  le_ok (let* x := c in k x) (let* x := c' in k' x).
Proof.
  intros Hc Hk s r. unfold bind.
  destruct (c s) as [[a s1]| |] eqn:Hcs; [|done..].
  rewrite (Hc _ _ Hcs). apply Hk.
Qed.

Lemma le_ok_for_loop (body body' : Z → M unit) k lo :
  (∀ i, le_ok (body i) (body' i)) →
  le_ok (for_loop k lo body) (for_loop k lo body').
Proof.
  intros Hb. revert lo. induction k as [|k IH]; intros lo; simpl.
  - apply le_ok_refl.
  - apply le_ok_bind; [apply Hb|]. intros _. apply IH.
Qed.

Lemma dfs_le_ok (f f' : nat) n m i j :
  (f ≤ f')%nat → le_ok (dfs f n m i j) (dfs f' n m i j).
Proof.
  revert f' i j. induction f as [|f IH]; intros f' i j Hle; [by intros s r|].
  destruct f' as [|f']; [lia|]. simpl.
  destruct ((i <? 0) || (j <? 0) || (i >=? n) || (j >=? m)); [apply le_ok_refl|].
  apply le_ok_bind; [apply le_ok_refl|]. intros c.
  destruct (c =? 1); [apply le_ok_refl|].
  apply le_ok_bind; [apply le_ok_refl|]. intros v.
  destruct (negb (v =? 0)); [apply le_ok_refl|].
  apply le_ok_bind; [apply le_ok_refl|]. intros _.
  repeat (apply le_ok_bind; [apply IH; lia|]; intros _).
  apply IH. lia.
Qed.

Lemma flood_if_new_le_ok (f f' : nat) n m i j :
  (f ≤ f')%nat → le_ok (flood_if_new f n m i j) (flood_if_new f' n m i j).
Proof.
  intros Hle. unfold flood_if_new.
  apply le_ok_bind; [apply le_ok_refl|]. intros [|]; [|apply le_ok_refl].
  apply le_ok_bind; [apply le_ok_refl|]. intros _. by apply dfs_le_ok.
Qed.

Lemma closedIsland_body_le_ok (f f' : nat) n m :
  (f ≤ f')%nat → le_ok (closedIsland_body f n m) (closedIsland_body f' n m).
Proof.
  intros Hle. unfold closedIsland_body, mark_border, count_islands, for_range.
  apply le_ok_bind.
  { apply le_ok_bind; [|intros _]; apply le_ok_for_loop; intros i;
      (apply le_ok_bind; [|intros _]; by apply flood_if_new_le_ok). }
  intros _. apply le_ok_bind; [|intros _; apply le_ok_refl].
  apply le_ok_for_loop. intros i. apply le_ok_for_loop. intros j.
  apply le_ok_bind; [apply le_ok_refl|]. intros [|]; [|apply le_ok_refl].
  apply le_ok_bind; [apply le_ok_refl|]. intros _.
  apply le_ok_bind; [by apply dfs_le_ok|]. intros _. apply le_ok_refl.
Qed.

Lemma closedIsland_run_fuel_mono (f f' : nat) (g : Grid) r :
  (f ≤ f')%nat → closedIsland_run f g = Ok r → closedIsland_run f' g = Ok r.
Proof.
  intros Hle. unfold closedIsland_run. destruct (vec_at g 0); [|done].
  by apply closedIsland_body_le_ok.
Qed.

(** ** Particular grids *)

Lemma for_loop_noop (body : Z → M unit) k lo s :
  (∀ i s', body i s' = Ok (tt, s')) → for_loop k lo body s = Ok (tt, s).
Proof.
  intros Hb. revert lo. induction k as [|k IH]; intros lo; simpl; [done|].
  unfold bind. by rewrite Hb.
Qed.

(** With at most two rows or at most two columns Step 2 has no cell to try. *)
Lemma count_islands_noop (fuel : nat) (n m : Z) s :
  n ≤ 2 ∨ m ≤ 2 → count_islands fuel n m s = Ok (tt, s).
Proof.
  intros Hnm. unfold count_islands.
  destruct (decide (n ≤ 2)) as [Hn|Hn]; [by apply for_range_empty; lia|].
  apply for_loop_noop. intros i s'. apply for_range_empty. lia.
Qed.

Lemma all_cells_at (x : Z) (g : Grid) i j y :
  all_cells x g = true → cell_at g i j = Some y → y = x.
Proof.
  unfold all_cells. intros Hall%Is_true_true%forallb_True (r & _ & Hr & _ & Hy)%cell_at_Some.
  rewrite Forall_lookup in Hall. specialize (Hall _ _ Hr).
  apply forallb_True in Hall. rewrite Forall_lookup in Hall.
  specialize (Hall _ _ Hy). apply Is_true_true, Z.eqb_eq in Hall. done.
Qed.

(** In a grid of land only, every cell reaches row 0 by going up. *)
Lemma all_land_reaches_top (g : Grid) n m i j :
  shape g n m → all_cells 0 g = true → inb n m (i, j) →
  connected g (i, j) (0, j).
Proof.
  intros Hsh Hall.
  assert (∀ c, inb n m c → land g c) as Hland.
  { intros [ci cj] Hc. destruct (cell_at_is_Some g n m ci cj Hsh Hc) as [y Hy].
    unfold land. simpl. by rewrite Hy, (all_cells_at 0 g ci cj y Hall Hy). }
  intros Hinb. assert (0 ≤ i) as Hi by (destruct Hinb; simpl in *; lia).
  revert Hinb. pattern i. revert i Hi.
  apply natlike_ind; [intros; by apply connected_refl, Hland|].
  intros i Hi IH Hinb.
  assert (inb n m (i, j)) as Hinb' by (unfold inb in *; simpl in *; lia).
  apply connected_step_l with (c1 := (i, j)); [by apply Hland| |by apply IH].
  unfold adj; simpl. lia.
Qed.

(** Closed cells are interior land cells, and are listed as such. *)
Lemma closed_cell_interior (g : Grid) c :
  shape g (nrows g) (ncols g) → closed_cell g c →
  interior (nrows g) (ncols g) c ∧ is_land g c = true.
Proof.
  intros Hsh [Hl Hnb]. split.
  - pose proof (land_inb g _ _ Hsh c Hl) as Hinb.
    pose proof (Hnb c (connected_refl g c Hl)) as Hc.
    unfold interior, on_border, inb in *. lia.
  - unfold is_land. unfold land in Hl. by rewrite Hl.
Qed.

Lemma elem_of_interior_cells (g : Grid) c :
  c ∈ interior_cells g ↔ interior (nrows g) (ncols g) c.
Proof.
  unfold interior_cells, interior. destruct c as [i j]. simpl.
  rewrite list_elem_of_bind. split.
  - intros (i' & (j' & [= -> ->] & Hj%elem_of_seqZ)%list_elem_of_fmap & Hi%elem_of_seqZ). lia.
  - intros [Hi Hj]. exists i. split; [|apply elem_of_seqZ; lia].
    apply list_elem_of_fmap. exists j. split; [done|]. apply elem_of_seqZ. lia.
Qed.

Lemma closed_reps_bound (g : Grid) (reps : list Cell) :
  shape g (nrows g) (ncols g) →
  Forall (closed_cell g) reps → NoDup reps →
  Z.of_nat (length reps) ≤ interior_land_count g.
Proof.
  intros Hsh Hclosed Hnd. unfold interior_land_count.
  apply inj_le, submseteq_length, NoDup_submseteq; [done|].
  intros c Hc. rewrite Forall_forall in Hclosed.
  destruct (closed_cell_interior g c Hsh (Hclosed c Hc)).
  apply list_elem_of_filter. split; [done|]. by apply elem_of_interior_cells.
Qed.

(** ** What [closedIsland] returns on a valid grid *)

Lemma closedIsland_final_store (g : Grid) :
  valid_grid g = true →
  ∃ s', closedIsland_run (enough_fuel g) g = Ok (count s', s') ∧
        closedIsland g = Ok (count s') ∧
        wfs g (nrows g) (ncols g) s' ∧
        closed_island_count g (count s').
Proof.
  intros Hv. destruct (closedIsland_spec g Hv) as (s' & Hrun & Hres & Hinv).
  pose proof Hv as (Hn & Hm & Hsh & Hbin & _)%valid_grid_inv.
  exists s'. split_and!; [done..| |].
  - by destruct Hinv as ((? & _) & _).
  - eapply count_inv_final; eauto.
Qed.

Lemma closedIsland_islands (g : Grid) :
  valid_grid g = true →
  ∃ k, closedIsland g = Ok k ∧ closed_island_count g k.
Proof.
  intros Hv. destruct (closedIsland_final_store g Hv) as (s' & _ & Hres & _ & Hcount).
  by exists (count s').
Qed.

Lemma closed_island_count_none (g : Grid) (k : Z) :
  closed_island_count g k → (∀ c, ¬ closed_cell g c) → k = 0.
Proof.
  intros (reps & <- & Hclosed & _) Hnone.
  destruct Hclosed as [|c l Hc _]; [done|]. by destruct (Hnone c).
Qed.

Lemma closedIsland_none (g : Grid) :
  valid_grid g = true → (∀ c, ¬ closed_cell g c) → closedIsland g = Ok 0.
Proof.
  intros Hv Hnone. destruct (closedIsland_islands g Hv) as (k & -> & Hk).
  by rewrite (closed_island_count_none g k Hk Hnone).
Qed.

(** C1: for every grid with n >= 1 rows, m >= 1 columns, all rows of length
    m and every cell 0 or 1, [closedIsland] returns the number of maximal
    4-connected regions of land cells (value 0) that contain no cell of row
    0, row n-1, column 0 or column m-1 (no path through land leads from the
    region to such a cell). *)
Theorem closedIsland_counts_closed_islands (g : Grid) :
  valid_grid g = true →
  ∃ k, closedIsland g = Ok k ∧ closed_island_count g k ∧
       ∀ k', closed_island_count g k' → k' = k.
Proof.
  intros Hv. destruct (closedIsland_islands g Hv) as (k & Hres & Hk).
  exists k. split_and!; [done..|].
  intros k' Hk'. by apply (closed_island_count_unique g).
Qed.

Lemma closedIsland_counts_closed_islands_witness :
  valid_grid [[1;1;1;1];[1;0;0;1];[1;0;0;1];[1;1;1;1]] = true ∧
  ∃ k, closedIsland [[1;1;1;1];[1;0;0;1];[1;0;0;1];[1;1;1;1]] = Ok k ∧
       closed_island_count [[1;1;1;1];[1;0;0;1];[1;0;0;1];[1;1;1;1]] k ∧
       ∀ k', closed_island_count [[1;1;1;1];[1;0;0;1];[1;0;0;1];[1;1;1;1]] k' → k' = k.
Proof.
  split; [reflexivity|].
  apply (closedIsland_counts_closed_islands [[1;1;1;1];[1;0;0;1];[1;0;0;1];[1;1;1;1]]).
  reflexivity.
Defined.

(** The cell (1,2) of the second scenario grid is land with water on all
    four sides, so it is a closed island by itself. *)
Lemma grid_enclosed_cell_closed : closed_cell grid_enclosed_cell (1, 2).
Proof.
  split; [reflexivity|].
  intros b [_ Hrtc] Hb.
  apply rtc_inv in Hrtc as [<-|([i j] & (_ & Hl & Hadj) & _)].
  - unfold on_border in Hb. vm_compute in Hb. intuition discriminate.
  - unfold adj in Hadj. simpl in Hadj.
    destruct Hadj as [[-> ->]|[[-> ->]|[[-> ->]|[-> ->]]]]; discriminate Hl.
Qed.

(** C2 as stated (result 0 on the second scenario grid) does not hold. *)
Lemma closedIsland_enclosed_cell_not_0 :
  closedIsland grid_enclosed_cell ≠ Ok 0.
Proof. vm_compute. discriminate. Qed.

(** C2, amended: on the grid [[0,0,1,0,0],[0,1,0,1,0],[0,1,1,1,0],[0,0,0,0,0]]
    [closedIsland] returns 1: the land cell (1,2) is enclosed by water. *)
Theorem closedIsland_enclosed_cell :
  closedIsland grid_enclosed_cell = Ok 1 ∧
  closed_cell grid_enclosed_cell (1, 2).
Proof. split; [by vm_compute|apply grid_enclosed_cell_closed]. Qed.

(** C3: for every valid grid in which every cell is land, [closedIsland]
    returns 0 (the witness gives the single-cell grid and the 3x3 grid). *)
Theorem closedIsland_all_land (g : Grid) :
  valid_grid g = true → all_cells 0 g = true → closedIsland g = Ok 0.
Proof.
  intros Hv Hall. apply closedIsland_none; [done|].
  pose proof Hv as (Hn & Hm & Hsh & _)%valid_grid_inv.
  intros [i j] [Hl Hnb].
  apply (Hnb (0, j)).
  - eapply all_land_reaches_top; eauto. by eapply land_inb.
  - unfold on_border; simpl. by left.
Qed.

Lemma closedIsland_all_land_witness :
  (valid_grid [[0]] = true ∧ all_cells 0 [[0]] = true ∧
   closedIsland [[0]] = Ok 0) ∧
  (valid_grid [[0;0;0];[0;0;0];[0;0;0]] = true ∧
   all_cells 0 [[0;0;0];[0;0;0];[0;0;0]] = true ∧
   closedIsland [[0;0;0];[0;0;0];[0;0;0]] = Ok 0).
Proof.
  split.
  - split; [reflexivity|]. split; [reflexivity|].
    apply (closedIsland_all_land [[0]]); reflexivity.
  - split; [reflexivity|]. split; [reflexivity|].
    apply (closedIsland_all_land [[0;0;0];[0;0;0];[0;0;0]]); reflexivity.
Defined.

(** C4: for every valid grid in which every cell is water, [closedIsland]
    returns 0. *)
Theorem closedIsland_all_water (g : Grid) :
  valid_grid g = true → all_cells 1 g = true → closedIsland g = Ok 0.
Proof.
  intros Hv Hall. apply closedIsland_none; [done|].
  intros [i j] [Hl _]. unfold land in Hl. simpl in Hl.
  by pose proof (all_cells_at 1 g i j 0 Hall Hl).
Qed.

Lemma closedIsland_all_water_witness :
  valid_grid [[1;1;1];[1;1;1];[1;1;1];[1;1;1]] = true ∧
  all_cells 1 [[1;1;1];[1;1;1];[1;1;1];[1;1;1]] = true ∧
  closedIsland [[1;1;1];[1;1;1];[1;1;1];[1;1;1]] = Ok 0.
Proof.
  split; [reflexivity|]. split; [reflexivity|].
  apply (closedIsland_all_water [[1;1;1];[1;1;1];[1;1;1];[1;1;1]]); reflexivity.
Defined.

(** C5: on the third scenario grid [closedIsland] returns 2. *)
Theorem closedIsland_two_islands :
  closedIsland grid_two_islands = Ok 2.
Proof. by vm_compute. Qed.

(** C6: for every valid grid the result of [closedIsland] is non-negative
    and at most the number of interior land cells, the cells (i,j) with
    1 <= i <= n-2, 1 <= j <= m-2 and grid[i][j] = 0. *)
Theorem closedIsland_count_range (g : Grid) :
  valid_grid g = true →
  ∃ k, closedIsland g = Ok k ∧ 0 ≤ k ≤ interior_land_count g.
Proof.
  intros Hv. destruct (closedIsland_islands g Hv) as (k & Hres & Hk).
  exists k. split; [done|].
  destruct Hk as (reps & <- & Hclosed & Hnd & _).
  pose proof Hv as (_ & _ & Hsh & _)%valid_grid_inv.
  pose proof (closed_reps_bound g reps Hsh Hclosed Hnd). lia.
Qed.

Lemma closedIsland_count_range_witness :
  valid_grid grid_two_islands = true ∧
  ∃ k, closedIsland grid_two_islands = Ok k ∧
       0 ≤ k ≤ interior_land_count grid_two_islands.
Proof.
  split; [reflexivity|].
  apply (closedIsland_count_range grid_two_islands). reflexivity.
Defined.

(** C7: for every valid grid, the grid the caller holds after the call is
    the input grid, cell for cell; so a second call on it returns the same
    result. *)
Theorem closedIsland_leaves_grid (g : Grid) :
  valid_grid g = true →
  ∃ k s', closedIsland_run (enough_fuel g) g = Ok (k, s') ∧
          grid s' = g ∧
          (∀ i j, cell_at (grid s') i j = cell_at g i j) ∧
          closedIsland (grid s') = Ok k ∧
          closedIsland g = Ok k.
Proof.
  intros Hv.
  destruct (closedIsland_final_store g Hv) as (s' & Hrun & Hres & (Hg & _) & _).
  exists (count s'), s'. rewrite Hg. by split_and!.
Qed.

Lemma closedIsland_leaves_grid_witness :
  valid_grid grid_two_islands = true ∧
  ∃ k s', closedIsland_run (enough_fuel grid_two_islands) grid_two_islands = Ok (k, s') ∧
          grid s' = grid_two_islands ∧
          (∀ i j, cell_at (grid s') i j = cell_at grid_two_islands i j) ∧
          closedIsland (grid s') = Ok k ∧
          closedIsland grid_two_islands = Ok k.
Proof.
  split; [reflexivity|].
  apply (closedIsland_leaves_grid grid_two_islands). reflexivity.
Defined.

(** C8: for every valid grid the call terminates with a result: every
    recursion budget above the number of cells n*m is enough for all the
    flood fills, and all such budgets give the same result and final
    store. *)
Theorem closedIsland_terminates (g : Grid) (fuel : nat) :
  valid_grid g = true →
  nrows g * ncols g < Z.of_nat fuel →
  ∃ k s', closedIsland_run fuel g = Ok (k, s') ∧
          closedIsland_run (enough_fuel g) g = Ok (k, s') ∧
          closedIsland g = Ok k.
Proof.
  intros Hv Hfuel.
  destruct (closedIsland_final_store g Hv) as (s' & Hrun & Hres & _).
  exists (count s'), s'. split_and!; [|done..].
  eapply closedIsland_run_fuel_mono; [|exact Hrun].
  unfold enough_fuel, nrows, ncols in *. lia.
Qed.

Lemma closedIsland_terminates_witness :
  valid_grid grid_two_islands = true ∧
  nrows grid_two_islands * ncols grid_two_islands < Z.of_nat 50 ∧
  ∃ k s', closedIsland_run 50 grid_two_islands = Ok (k, s') ∧
          closedIsland_run (enough_fuel grid_two_islands) grid_two_islands = Ok (k, s') ∧
          closedIsland grid_two_islands = Ok k.
Proof.
  split; [reflexivity|]. split; [reflexivity|].
  apply (closedIsland_terminates grid_two_islands 50); reflexivity.
Defined.

(** C9: for every valid grid with at most two rows or at most two columns
    [closedIsland] returns 0 whatever the cells hold: Step 2 ranges over
    rows 1..n-2 and columns 1..m-2, which is empty, and so does nothing. *)
Theorem closedIsland_thin_grid (g : Grid) :
  valid_grid g = true →
  nrows g ≤ 2 ∨ ncols g ≤ 2 →
  closedIsland g = Ok 0 ∧
  ∀ fuel s, count_islands fuel (nrows g) (ncols g) s = Ok (tt, s).
Proof.
  intros Hv Hthin. split; [|intros fuel s; by apply count_islands_noop].
  apply closedIsland_none; [done|].
  pose proof Hv as (_ & _ & Hsh & _)%valid_grid_inv.
  intros c Hc. destruct (closed_cell_interior g c Hsh Hc) as [Hint _].
  unfold interior in Hint. lia.
Qed.

Lemma closedIsland_thin_grid_witness :
  valid_grid [[1;0;1];[1;0;0]] = true ∧
  (nrows [[1;0;1];[1;0;0]] ≤ 2 ∨ ncols [[1;0;1];[1;0;0]] ≤ 2) ∧
  closedIsland [[1;0;1];[1;0;0]] = Ok 0 ∧
  ∀ fuel s, count_islands fuel (nrows [[1;0;1];[1;0;0]]) (ncols [[1;0;1];[1;0;0]]) s
            = Ok (tt, s).
Proof.
  split; [reflexivity|].
  assert (nrows [[1;0;1];[1;0;0]] ≤ 2 ∨ ncols [[1;0;1];[1;0;0]] ≤ 2) as Hthin.
  { left. unfold nrows. simpl. lia. }
  split; [exact Hthin|].
  apply (closedIsland_thin_grid [[1;0;1];[1;0;0]]); [reflexivity|exact Hthin].
Defined.

(** C10: throughout the execution on a valid grid, [visited] is set (to 1)
    only at land cells: every value the matrix takes, from the all-zero
    initial one to the final one, marks only land; and every flood fill the
    loops start is rooted at a land cell. *)
Theorem closedIsland_marks_only_land (g : Grid) :
  valid_grid g = true →
  ∃ k s', closedIsland_run (enough_fuel g) g = Ok (k, s') ∧
          head (history s') = Some (visited s') ∧
          last (history s') =
            Some (replicate (length g) (replicate (length (default [] (head g))) 0)) ∧
          Forall (marks_only_land g) (history s') ∧
          Forall (land g) (roots s').
Proof.
  intros Hv.
  destruct (closedIsland_final_store g Hv) as (s' & Hrun & _ & Hwf & _).
  destruct Hwf as (_ & _ & Hhd & Hhist & Hroots & Hlast).
  unfold nrows, ncols in Hlast. rewrite !Nat2Z.id in Hlast.
  by exists (count s'), s'.
Qed.

Lemma closedIsland_marks_only_land_witness :
  valid_grid grid_two_islands = true ∧
  ∃ k s', closedIsland_run (enough_fuel grid_two_islands) grid_two_islands = Ok (k, s') ∧
          head (history s') = Some (visited s') ∧
          last (history s') =
            Some (replicate (length grid_two_islands)
                    (replicate (length (default [] (head grid_two_islands))) 0)) ∧
          Forall (marks_only_land grid_two_islands) (history s') ∧
          Forall (land grid_two_islands) (roots s').
Proof.
  split; [reflexivity|].
  apply (closedIsland_marks_only_land grid_two_islands). reflexivity.
Defined.

(** ** Further properties of the routine *)

(** X1: without a cell [grid[0][0]] (no row, or an empty first row) the call
    indexes a vector out of range, whatever the budget: it reads [grid[0]],
    and with a first row it reads [grid[0][0]] in the first iteration of
    Step 1. *)
Theorem closedIsland_no_first_cell (g : Grid) (fuel : nat) :
  g = [] ∨ head g = Some [] →
  closedIsland_run fuel g = OutOfBounds ∧ closedIsland g = OutOfBounds.
Proof.
  assert (∀ f, g = [] ∨ head g = Some [] → closedIsland_run f g = OutOfBounds) as Hrun.
  { intros f [->|Hhd]; [done|].
    destruct g as [|r0 g']; simplify_eq/=.
    assert (∀ n m s, grid s = [] :: g' → flood_if_new f n m 0 0 s = OutOfBounds)
      as Hfirst.
    { intros n m s Hs. unfold flood_if_new, unvisited_land, bind, read_grid.
      by rewrite Hs. }
    unfold closedIsland_run. change (vec_at ([] :: g') 0) with (Some ([] : list Z)).
    cbv beta iota. unfold closedIsland_body, mark_border, for_range.
    replace (Z.to_nat (Z.of_nat (length ([] :: g')) - 0)) with (S (length g'))
      by (simpl; lia).
    cbn [for_loop]. unfold bind. by rewrite Hfirst. }
  intros Hg. split; [by apply Hrun|].
  unfold closedIsland. by rewrite Hrun.
Qed.

Lemma closedIsland_no_first_cell_witness :
  (([] : Grid) = [] ∨ head ([] : Grid) = Some []) ∧
  ([[]; [0; 1]] = [] ∨ head [[]; [0; 1]] = Some []) ∧
  (closedIsland_run 7 [] = OutOfBounds ∧ closedIsland [] = OutOfBounds) ∧
  (closedIsland_run 7 [[]; [0; 1]] = OutOfBounds ∧
   closedIsland [[]; [0; 1]] = OutOfBounds).
Proof.
  split; [left; reflexivity|]. split; [right; reflexivity|].
  split.
  - apply (closedIsland_no_first_cell [] 7). left. reflexivity.
  - apply (closedIsland_no_first_cell [[]; [0; 1]] 7). right. reflexivity.
Defined.

(** X2: on a valid grid, the flood fill started at any [(i, j)] on the fresh
    [visited] matrix finishes and marks exactly the region of [(i, j)]:
    nothing when [(i, j)] is water or outside the grid.  It leaves the grid
    and the counter as they were. *)
Theorem dfs_marks_region (g : Grid) (fuel : nat) (i j : Z) :
  valid_grid g = true →
  nrows g * ncols g < Z.of_nat fuel →
  ∃ s', dfs fuel (nrows g) (ncols g) i j (init_store g (nrows g) (ncols g))
          = Ok (tt, s') ∧
        grid s' = g ∧ count s' = 0 ∧
        ∀ c, marked (visited s') c ↔ connected g (i, j) c.
Proof.
  intros (Hn & Hm & Hsh & Hbin & _)%valid_grid_inv Hfuel.
  pose proof (dfs_fresh g _ _ Hsh Hbin Hn Hm fuel Hfuel i j) as Hwp.
  apply wp_ok in Hwp as ([] & s' & Hrun & Hpost). by exists s'.
Qed.

Lemma dfs_marks_region_witness :
  valid_grid grid_two_islands = true ∧
  nrows grid_two_islands * ncols grid_two_islands < Z.of_nat 41 ∧
  ∃ s', dfs 41 (nrows grid_two_islands) (ncols grid_two_islands) 1 1
            (init_store grid_two_islands (nrows grid_two_islands) (ncols grid_two_islands))
          = Ok (tt, s') ∧
        grid s' = grid_two_islands ∧ count s' = 0 ∧
        ∀ c, marked (visited s') c ↔ connected grid_two_islands (1, 1) c.
Proof.
  split; [reflexivity|]. split; [reflexivity|].
  apply (dfs_marks_region grid_two_islands 41 1 1); reflexivity.
Defined.

(** X3: on a valid grid, Step 1 by itself finishes and marks exactly the land
    cells from which a path through land leads to a border cell; the
    counter is still 0. *)
Theorem mark_border_marks_open (g : Grid) (fuel : nat) :
  valid_grid g = true →
  nrows g * ncols g < Z.of_nat fuel →
  ∃ s', mark_border fuel (nrows g) (ncols g) (init_store g (nrows g) (ncols g))
          = Ok (tt, s') ∧
        grid s' = g ∧ count s' = 0 ∧
        ∀ c, marked (visited s') c ↔
             ∃ b, connected g c b ∧ on_border (nrows g) (ncols g) b.
Proof.
  intros (Hn & Hm & Hsh & Hbin & _)%valid_grid_inv Hfuel.
  pose proof (mark_border_open g _ _ Hsh Hbin Hn Hm fuel Hfuel) as Hwp.
  apply wp_ok in Hwp as ([] & s' & Hrun & Hpost). by exists s'.
Qed.

Lemma mark_border_marks_open_witness :
  valid_grid grid_two_islands = true ∧
  nrows grid_two_islands * ncols grid_two_islands < Z.of_nat 41 ∧
  ∃ s', mark_border 41 (nrows grid_two_islands) (ncols grid_two_islands)
            (init_store grid_two_islands (nrows grid_two_islands) (ncols grid_two_islands))
          = Ok (tt, s') ∧
        grid s' = grid_two_islands ∧ count s' = 0 ∧
        ∀ c, marked (visited s') c ↔
             ∃ b, connected grid_two_islands c b ∧
                  on_border (nrows grid_two_islands) (ncols grid_two_islands) b.
Proof.
  split; [reflexivity|]. split; [reflexivity|].
  apply (mark_border_marks_open grid_two_islands 41); reflexivity.
Defined.

Lemma closedIsland_run_roots (g : Grid) :
  valid_grid g = true →
  ∃ s', closedIsland_run (enough_fuel g) g = Ok (count s', s') ∧
        count_inv g (nrows g) (ncols g) (enough_fuel g)
                  (interior (nrows g) (ncols g)) s' ∧
        roots_core g s' ∧ roots_split g (nrows g) (ncols g) s'.
Proof.
  intros (Hn & Hm & Hsh & Hbin & r0 & Hr0 & Hlen)%valid_grid_inv.
  pose proof (closedIsland_body_roots g _ _ Hsh Hbin Hn Hm _ (enough_fuel_bound g)) as Hwp.
  apply wp_ok in Hwp as (r & s' & Hrun & -> & Hinv & Hcore & Hsplit).
  exists s'. split; [|done].
  unfold closedIsland_run. rewrite Hr0, Hlen. exact Hrun.
Qed.

(** X4: on a valid grid, when the call returns [visited] is the grid with 0 and
    1 exchanged: every land cell has been marked, no water cell has. *)
Theorem closedIsland_final_visited (g : Grid) :
  valid_grid g = true →
  ∃ k s', closedIsland_run (enough_fuel g) g = Ok (k, s') ∧
          ∀ i j x, cell_at g i j = Some x →
                   cell_at (visited s') i j = Some (1 - x).
Proof.
  intros Hv. destruct (closedIsland_run_roots g Hv) as (s' & Hrun & Hinv & _).
  pose proof Hv as (Hn & Hm & Hsh & Hbin & _)%valid_grid_inv.
  exists (count s'), s'. split; [done|].
  intros i j x Hx. eapply count_inv_visited; eauto.
Qed.

Lemma closedIsland_final_visited_witness :
  valid_grid grid_two_islands = true ∧
  ∃ k s', closedIsland_run (enough_fuel grid_two_islands) grid_two_islands = Ok (k, s') ∧
          ∀ i j x, cell_at grid_two_islands i j = Some x →
                   cell_at (visited s') i j = Some (1 - x).
Proof.
  split; [reflexivity|].
  apply (closedIsland_final_visited grid_two_islands). reflexivity.
Defined.



(** X6: on a valid grid, the result is the number of flood fills Step 2 starts:
    the roots of Step 2 are closed cells, as many as the result, and the
    roots of Step 1 are land cells on the border. *)
Theorem closedIsland_counts_interior_fills (g : Grid) :
  valid_grid g = true →
  ∃ k s' rc ro,
    closedIsland_run (enough_fuel g) g = Ok (k, s') ∧
    roots s' = rc ++ ro ∧
    Z.of_nat (length rc) = k ∧
    Forall (closed_cell g) rc ∧
    Forall (λ r, land g r ∧ on_border (nrows g) (ncols g) r) ro.
Proof.
  intros Hv. destruct (closedIsland_run_roots g Hv) as (s' & Hrun & Hinv & _ & Hsplit).
  destruct Hsplit as (rc & ro & Hroots & Hlen & Hrc & Hro).
  exists (count s'), s', rc, ro. split_and!; try done.
  destruct Hinv as ((Hwf & _) & _). destruct Hwf as (_ & _ & _ & _ & Hland & _).
  rewrite Hroots in Hland. apply Forall_app in Hland as [_ Hland].
  rewrite Forall_forall in Hland, Hro. apply Forall_forall. intros r Hr.
  split; [by apply Hland|by apply Hro].
Qed.

Lemma closedIsland_counts_interior_fills_witness :
  valid_grid grid_two_islands = true ∧
  ∃ k s' rc ro,
    closedIsland_run (enough_fuel grid_two_islands) grid_two_islands = Ok (k, s') ∧
    roots s' = rc ++ ro ∧
    Z.of_nat (length rc) = k ∧
    Forall (closed_cell grid_two_islands) rc ∧
    Forall (λ r, land grid_two_islands r ∧
                 on_border (nrows grid_two_islands) (ncols grid_two_islands) r) ro.
Proof.
  split; [reflexivity|].
  apply (closedIsland_counts_interior_fills grid_two_islands). reflexivity.
Defined.

(** X7: on a valid grid, [visited] is written exactly once for each land cell:
    [history] has one entry for the initial matrix and one per write, and
    their number is one more than the number of zeros in the grid. *)
Theorem closedIsland_writes_once_per_land_cell (g : Grid) :
  valid_grid g = true →
  ∃ k s', closedIsland_run (enough_fuel g) g = Ok (k, s') ∧
          Z.of_nat (length (history s')) = 1 + Z.of_nat (zeros2 g).
Proof.
  intros Hv.
  pose proof Hv as (Hn & Hm & Hsh & Hbin & r0 & Hr0 & Hlen)%valid_grid_inv.
  pose proof (closedIsland_body_writes g _ _ Hsh Hbin Hn Hm _ (enough_fuel_bound g)) as Hwp.
  apply wp_ok in Hwp as (r & s' & Hrun & -> & Hinv & Hw).
  exists (count s'), s'. split.
  - unfold closedIsland_run. rewrite Hr0, Hlen. exact Hrun.
  - eapply writes_final; eauto.
Qed.

Lemma closedIsland_writes_once_per_land_cell_witness :
  valid_grid grid_two_islands = true ∧
  ∃ k s', closedIsland_run (enough_fuel grid_two_islands) grid_two_islands = Ok (k, s') ∧
          Z.of_nat (length (history s')) = 1 + Z.of_nat (zeros2 grid_two_islands).
Proof.
  split; [reflexivity|].
  apply (closedIsland_writes_once_per_land_cell grid_two_islands). reflexivity.
Defined.

(** ** Rows shorter than the first *)

(** [c] run from [s] does not exhaust the budget, and if it finishes
    normally it does so in a state satisfying [Q]. *)
Definition wpb {A : Type} (c : M A) (Q : A → Store → Prop) (s : Store) : Prop :=
  match c s with
  | Ok (a, s') => Q a s'
  | OutOfFuel => False
  | OutOfBounds => True
  end.

Lemma wpb_ret {A} (a : A) (Q : A → Store → Prop) s : Q a s → wpb (ret a) Q s.
Proof. done. Qed.

Lemma wpb_bind {A B} (c : M A) (k : A → M B) (Q : B → Store → Prop) s :
  wpb c (λ a s', wpb (k a) Q s') s → wpb (let* x := c in k x) Q s.
Proof. unfold wpb, bind. destruct (c s) as [[a s']| |]; done. Qed.

Lemma wpb_mono {A} (c : M A) (Q Q' : A → Store → Prop) s :
  wpb c Q s → (∀ a s', Q a s' → Q' a s') → wpb c Q' s.
Proof. unfold wpb. destruct (c s) as [[a s']| |]; auto. Qed.

Lemma wpb_bind_ok {A B} (c : M A) (k : A → M B) (Q : B → Store → Prop) s a s' :
  c s = Ok (a, s') → wpb (k a) Q s' → wpb (let* x := c in k x) Q s.
Proof. intros Hc Hk. unfold wpb, bind in *. by rewrite Hc. Qed.

Lemma wpb_bind_oob {A B} (c : M A) (k : A → M B) (Q : B → Store → Prop) s :
  c s = OutOfBounds → wpb (let* x := c in k x) Q s.
Proof. intros Hc. unfold wpb, bind. by rewrite Hc. Qed.

Lemma wpb_for_loop (P : Store → Prop) (body : Z → M unit) k lo s :
  P s →
  (∀ i s', P s' → wpb (body i) (λ _ s'', P s'') s') →
  wpb (for_loop k lo body) (λ _ s', P s') s.
Proof.
  intros HP Hbody. revert lo s HP. induction k as [|k IH]; intros lo s HP; simpl.
  - by apply wpb_ret.
  - apply wpb_bind. eapply wpb_mono; [by apply Hbody|].
    intros [] s' HP'. by apply IH.
Qed.

(** A loop that passes an iteration which cannot finish normally does not
    finish normally. *)
Lemma wpb_for_loop_fail (P : Store → Prop) (body : Z → M unit) (i0 : Z) k lo s :
  lo ≤ i0 < lo + Z.of_nat k →
  P s →
  (∀ i s', P s' → wpb (body i) (λ _ s'', P s'') s') →
  (∀ s', P s' → wpb (body i0) (λ _ _, False) s') →
  wpb (for_loop k lo body) (λ _ _, False) s.
Proof.
  intros Hi0 HP Hbody Hfail. revert lo s Hi0 HP.
  induction k as [|k IH]; intros lo s Hi0 HP; simpl; [lia|].
  apply wpb_bind. destruct (decide (lo = i0)) as [->|Hne].
  - eapply wpb_mono; [by apply Hfail|]. done.
  - eapply wpb_mono; [by apply Hbody|].
    intros [] s' HP'. apply IH; [lia|done].
Qed.

Lemma unvisited_land_cases i j s :
  unvisited_land i j s = OutOfBounds ∨ ∃ b, unvisited_land i j s = Ok (b, s).
Proof.
  unfold unvisited_land, bind, read_grid, read_visited, ret.
  destruct (cell_at (grid s) i j) as [x|]; [|by left].
  destruct (x =? 0); [|right; by exists false].
  destruct (cell_at (visited s) i j) as [v|]; [|by left].
  right. by exists (v =? 0).
Qed.

Section short_row.
Variables (g : Grid) (n m : Z) (fuel : nat).

(** Only the shape of [visited] is assumed, nothing about the grid. *)
Definition loose_inv (s : Store) : Prop :=
  grid s = g ∧ shape (visited s) n m ∧ (zeros2 (visited s) < fuel)%nat.

Lemma dfs_wpb f : ∀ i j s,
  grid s = g → shape (visited s) n m → (zeros2 (visited s) < f)%nat →
  wpb (dfs f n m i j)
      (λ _ s', grid s' = g ∧ shape (visited s') n m ∧
               (zeros2 (visited s') ≤ zeros2 (visited s))%nat) s.
Proof.
  induction f as [|f IH]; intros i j s Hg Hsh Hfuel; [lia|].
  simpl.
  destruct ((i <? 0) || (j <? 0) || (i >=? n) || (j >=? m)) eqn:Hguard;
    [by apply wpb_ret|].
  assert (inb n m (i, j)) as Hinb by (unfold inb; simpl; lia).
  destruct (cell_at (grid s) i j) as [x|] eqn:Hx.
  2:{ apply wpb_bind_oob. unfold read_grid. by rewrite Hx. }
  eapply wpb_bind_ok; [unfold read_grid; by rewrite Hx|].
  destruct (x =? 1); [by apply wpb_ret|].
  destruct (cell_at_is_Some _ n m i j Hsh Hinb) as [v Hv].
  eapply wpb_bind_ok; [unfold read_visited; by rewrite Hv|].
  destruct (Z.eqb_spec v 0) as [->|Hv0]; simpl; [|by apply wpb_ret].
  destruct (cell_set_spec _ _ _ _ _ Hsh Hv) as (v' & Hset & Hsh' & _ & _ & Hz).
  eapply wpb_bind_ok; [unfold mark_visited; by rewrite Hset|].
  set (s1 := mkStore (grid s) v' (count s) (v' :: history s) (roots s)).
  assert (∀ i' j' sa,
            grid sa = g ∧ shape (visited sa) n m ∧
            (zeros2 (visited sa) ≤ zeros2 v')%nat →
            wpb (dfs f n m i' j')
                (λ _ sb, grid sb = g ∧ shape (visited sb) n m ∧
                         (zeros2 (visited sb) ≤ zeros2 v')%nat) sa) as Hcall.
  { intros i' j' sa (Hga & Hsha & Hza).
    eapply wpb_mono; [apply IH; [done..|lia]|].
    intros [] sb (? & ? & ?). split_and!; [done..|lia]. }
  apply wpb_bind. eapply wpb_mono; [by apply Hcall|].
  intros [] s2 H2. apply wpb_bind. eapply wpb_mono; [by apply Hcall|].
  intros [] s3 H3. apply wpb_bind. eapply wpb_mono; [by apply Hcall|].
  intros [] s4 H4. eapply wpb_mono; [by apply Hcall|].
  intros [] s5 (? & ? & ?). split_and!; [done..|lia].
Qed.

Lemma flood_if_new_wpb i j s :
  loose_inv s → wpb (flood_if_new fuel n m i j) (λ _ s', loose_inv s') s.
Proof.
  intros (Hg & Hsh & Hfuel). unfold flood_if_new.
  destruct (unvisited_land_cases i j s) as [Hoob|[b Hb]]; [by apply wpb_bind_oob|].
  eapply wpb_bind_ok; [exact Hb|].
  destruct b; [|by apply wpb_ret].
  eapply wpb_bind_ok; [reflexivity|].
  eapply wpb_mono; [by apply dfs_wpb|].
  intros [] s' (? & ? & ?). simpl in *. split_and!; [done..|lia].
Qed.

(** The test [grid[i][j] == 0 && ...] at a position the grid does not have
    cannot finish normally. *)
Lemma flood_if_new_missing_cell i j s :
  grid s = g → cell_at g i j = None →
  wpb (flood_if_new fuel n m i j) (λ _ _, False) s.
Proof.
  intros Hg Hnone. unfold flood_if_new. apply wpb_bind_oob.
  unfold unvisited_land, bind, read_grid. by rewrite Hg, Hnone.
Qed.

Lemma mark_border_short_row (i0 : Z) s :
  0 ≤ i0 < n → cell_at g i0 (m - 1) = None →
  loose_inv s →
  wpb (mark_border fuel n m) (λ _ _, False) s.
Proof.
  intros Hi0 Hnone Hinv. unfold mark_border. apply wpb_bind.
  apply (wpb_mono _ (λ _ _, False)); [|done]. unfold for_range.
  apply (wpb_for_loop_fail loose_inv _ i0); [lia|done| |].
  - intros i s' Hs'. apply wpb_bind.
    eapply wpb_mono; [by apply flood_if_new_wpb|].
    intros [] s'' Hs''. by apply flood_if_new_wpb.
  - intros s' Hs'. apply wpb_bind.
    eapply wpb_mono; [by apply flood_if_new_wpb|].
    intros [] s'' (Hg'' & _). by apply flood_if_new_missing_cell.
Qed.
End short_row.

(** X8: if some row is shorter than the first row, the call indexes a vector
    out of range (in Step 1 at the latest, when it reads the last column of
    that row), for every budget above the number of cells of [visited]. *)
Theorem closedIsland_short_row (g : Grid) (fuel : nat) (r0 r : list Z) (i : nat) :
  head g = Some r0 → g !! i = Some r → (length r < length r0)%nat →
  Z.of_nat (length g) * Z.of_nat (length r0) < Z.of_nat fuel →
  closedIsland_run fuel g = OutOfBounds.
Proof.
  intros Hhd Hr Hshort Hfuel.
  pose proof (lookup_lt_Some _ _ _ Hr) as Hi.
  unfold closedIsland_run.
  assert (vec_at g 0 = Some r0) as -> by (destruct g; by simplify_eq/=).
  set (n := Z.of_nat (length g)). set (m := Z.of_nat (length r0)).
  assert (wpb (closedIsland_body fuel n m) (λ _ _, False) (init_store g n m)) as Hwpb.
  { unfold closedIsland_body. apply wpb_bind.
    apply (wpb_mono _ (λ _ _, False)); [|done].
    apply (mark_border_short_row g n m fuel (Z.of_nat i)); [lia| |].
    - unfold cell_at, vec_at. destruct (Z.ltb_spec (Z.of_nat i) 0); [done|].
      rewrite Nat2Z.id, Hr. destruct (Z.ltb_spec (m - 1) 0); [done|].
      apply lookup_ge_None. lia.
    - assert (shape (visited (init_store g n m)) n m) as Hsh
        by (apply shape_replicate; lia).
      split_and!; [done|done|]. pose proof (zeros2_le _ _ _ Hsh). lia. }
  unfold wpb in Hwpb.
  by destruct (closedIsland_body fuel n m (init_store g n m)) as [[? ?]| |].
Qed.

Lemma closedIsland_short_row_witness :
  head [[1;1;1];[1;0];[1;1;1]] = Some [1;1;1] ∧
  [[1;1;1];[1;0];[1;1;1]] !! 1%nat = Some [1;0] ∧
  (length [1;0] < length [1;1;1])%nat ∧
  Z.of_nat (length [[1;1;1];[1;0];[1;1;1]]) * Z.of_nat (length [1;1;1]) < Z.of_nat 10 ∧
  closedIsland_run 10 [[1;1;1];[1;0];[1;1;1]] = OutOfBounds.
Proof.
  split; [reflexivity|]. split; [reflexivity|]. split; [simpl; lia|].
  split; [reflexivity|].
  apply (closedIsland_short_row [[1;1;1];[1;0];[1;1;1]] 10 [1;1;1] [1;0] 1);
    [reflexivity|reflexivity|simpl; lia|reflexivity].
Defined.

(** ** Depth of the recursion *)

Lemma dfs_S (f : nat) (n m i j : Z) :
  dfs (S f) n m i j =
  if (i <? 0) || (j <? 0) || (i >=? n) || (j >=? m) then ret tt
  else
    let* c := read_grid i j in
    if c =? 1 then ret tt
    else
      let* v := read_visited i j in
      if negb (v =? 0) then ret tt
      else
        mark_visited i j ;;
        dfs f n m (i + 1) j ;;
        dfs f n m (i - 1) j ;;
        dfs f n m i (j + 1) ;;
        dfs f n m i (j - 1).
Proof. reflexivity. Qed.

Lemma cell_at_single_row (r : list Z) (j : nat) :
  cell_at [r] 0 (Z.of_nat j) = r !! j.
Proof.
  unfold cell_at, vec_at. simpl.
  destruct (Z.ltb_spec (Z.of_nat j) 0); [lia|]. by rewrite Nat2Z.id.
Qed.

(** In a single row of land whose first [jn] cells are marked, the fill from
    cell [jn] needs a budget larger than the number [k] of unmarked cells:
    it walks to the right end, one call deeper per cell. *)
Lemma dfs_row_out_of_fuel (mm : nat) : ∀ (k jn f : nat) s,
  mm = (jn + k)%nat → (1 ≤ k)%nat → (f ≤ k)%nat →
  grid s = [replicate mm 0] →
  visited s = [replicate jn 1 ++ replicate k 0] →
  dfs f 1 (Z.of_nat mm) 0 (Z.of_nat jn) s = OutOfFuel.
Proof.
  induction k as [|k IH]; intros jn f s Hmm Hk Hf Hg Hv; [lia|].
  destruct f as [|f]; [done|].
  rewrite dfs_S.
  destruct ((0 <? 0) || (Z.of_nat jn <? 0) || (0 >=? 1) ||
            (Z.of_nat jn >=? Z.of_nat mm)) eqn:Hguard; [lia|].
  unfold bind at 1. unfold read_grid. rewrite Hg, cell_at_single_row.
  rewrite lookup_replicate_2 by lia. simpl.
  unfold bind at 1. unfold read_visited. rewrite Hv, cell_at_single_row.
  rewrite lookup_app_r by (rewrite length_replicate; lia).
  rewrite length_replicate, Nat.sub_diag. simpl.
  unfold bind at 1. unfold mark_visited, cell_set. rewrite Hv.
  change (vec_at [replicate jn 1 ++ replicate (S k) 0] 0)
    with (Some (replicate jn 1 ++ replicate (S k) 0)).
  unfold vec_at. destruct (Z.ltb_spec (Z.of_nat jn) 0); [lia|].
  rewrite Nat2Z.id, lookup_app_r by (rewrite length_replicate; lia).
  rewrite length_replicate, Nat.sub_diag. simpl.
  rewrite insert_app_r_alt by (rewrite length_replicate; lia).
  rewrite length_replicate, Nat.sub_diag. simpl.
  set (s1 := mkStore _ _ _ _ _).
  destruct f as [|f]; [done|].
  unfold bind at 1. rewrite dfs_S.
  destruct ((0 + 1 <? 0) || (Z.of_nat jn <? 0) || (0 + 1 >=? 1) ||
            (Z.of_nat jn >=? Z.of_nat mm)) eqn:Hguard1; [|lia].
  unfold ret at 1.
  unfold bind at 1. rewrite dfs_S.
  destruct ((0 - 1 <? 0) || (Z.of_nat jn <? 0) || (0 - 1 >=? 1) ||
            (Z.of_nat jn >=? Z.of_nat mm)) eqn:Hguard2; [|lia].
  unfold ret at 1.
  unfold bind at 1.
  replace (Z.of_nat jn + 1) with (Z.of_nat (S jn)) by lia.
  rewrite (IH (S jn) (S f) s1); [done|lia|lia|lia|done|].
  subst s1. simpl. f_equal.
  change (replicate jn 1 ++ 1 :: replicate k 0 =
          (1 :: replicate jn 1) ++ replicate k 0).
  by rewrite replicate_cons_app, <-(assoc (++)).
Qed.

(** X9: on a single row of [m] land cells the recursion goes [m + 1] calls deep:
    a budget of [m] or less does not suffice (one of [m + 1] or more does,
    by [closedIsland_terminates]).  The depth of the recursion can thus be
    the number of cells. *)
Theorem closedIsland_single_row_depth (m fuel : nat) :
  (1 ≤ m)%nat → (fuel ≤ m)%nat →
  closedIsland_run fuel [replicate m 0] = OutOfFuel.
Proof.
  intros Hm Hfuel. unfold closedIsland_run.
  change (vec_at [replicate m 0] 0) with (Some (replicate m 0)).
  cbv beta iota zeta. rewrite length_replicate.
  change (Z.of_nat (length [replicate m 0])) with 1.
  set (s0 := init_store [replicate m 0] 1 (Z.of_nat m)).
  assert (visited s0 = [replicate m 0]) as Hv0.
  { subst s0. simpl. by rewrite Nat2Z.id. }
  assert (flood_if_new fuel 1 (Z.of_nat m) 0 0 s0 = OutOfFuel) as Hfirst.
  { unfold flood_if_new, unvisited_land.
    unfold bind at 1. unfold bind at 1. unfold read_grid.
    change (grid s0) with [replicate m 0].
    rewrite (cell_at_single_row _ 0), lookup_replicate_2 by lia. simpl.
    unfold bind at 1. unfold read_visited.
    rewrite Hv0, (cell_at_single_row _ 0), lookup_replicate_2 by lia. simpl.
    unfold bind at 1. unfold note_root.
    apply (dfs_row_out_of_fuel m m 0 fuel); [done|done|done|done|].
    simpl. exact Hv0. }
  unfold closedIsland_body, mark_border, for_range.
  change (Z.to_nat (1 - 0)) with 1%nat. cbn [for_loop].
  unfold bind. by rewrite Hfirst.
Qed.

Lemma closedIsland_single_row_depth_witness :
  (1 ≤ 4)%nat ∧ (4 ≤ 4)%nat ∧
  closedIsland_run 4 [replicate 4 0] = OutOfFuel.
Proof.
  split; [lia|]. split; [lia|].
  apply (closedIsland_single_row_depth 4 4); lia.
Defined.

(** ** Columns beyond the length of the first row *)

Definition rel_res {A : Type} (R : Store → Store → Prop)
    (r1 r2 : Res (A * Store)) : Prop :=
  match r1, r2 with
  | Ok (a, s), Ok (b, t) => a = b ∧ R s t
  | OutOfFuel, OutOfFuel => True
  | OutOfBounds, OutOfBounds => True
  | _, _ => False
  end.

Section window.
Variables (g g' : Grid) (m : Z).
Hypothesis agree : ∀ i j, j < m → cell_at g i j = cell_at g' i j.

(** Two stores that differ in the grid only. *)
Definition same_but_grid (s t : Store) : Prop :=
  grid s = g ∧ grid t = g' ∧ visited s = visited t ∧ count s = count t ∧
  history s = history t ∧ roots s = roots t.

(** [c] behaves alike on the two grids. *)
Definition sim {A : Type} (c : M A) : Prop :=
  ∀ s t, same_but_grid s t → rel_res same_but_grid (c s) (c t).

Lemma sim_ret {A} (a : A) : sim (ret a).
Proof. by intros s t Hst. Qed.

Lemma sim_bind {A B} (c : M A) (k : A → M B) :
  sim c → (∀ a, sim (k a)) → sim (let* x := c in k x).
Proof.
  intros Hc Hk s t Hst. specialize (Hc s t Hst). unfold bind.
  destruct (c s) as [[a s']| |], (c t) as [[b t']| |]; try done.
  destruct Hc as [<- Hst']. by apply Hk.
Qed.

Lemma sim_for_loop (body : Z → M unit) k lo :
  (∀ i, lo ≤ i < lo + Z.of_nat k → sim (body i)) →
  sim (for_loop k lo body).
Proof.
  revert lo. induction k as [|k IH]; intros lo Hbody; simpl; [apply sim_ret|].
  apply sim_bind; [apply Hbody; lia|]. intros _. apply IH.
  intros i Hi. apply Hbody. lia.
Qed.

Lemma sim_for_range (body : Z → M unit) lo hi :
  (∀ i, lo ≤ i < hi → sim (body i)) → sim (for_range lo hi body).
Proof. intros Hbody. apply sim_for_loop. intros i Hi. apply Hbody. lia. Qed.

Lemma sim_read_grid i j : j < m → sim (read_grid i j).
Proof.
  intros Hj s t (Hs & Ht & Hst). unfold read_grid. rewrite Hs, Ht, (agree i j Hj).
  by destruct (cell_at g' i j).
Qed.

Lemma sim_read_visited i j : sim (read_visited i j).
Proof.
  intros s t (Hs & Ht & Hv & Hst). unfold read_visited. rewrite Hv.
  by destruct (cell_at (visited t) i j).
Qed.

Lemma sim_mark_visited i j : sim (mark_visited i j).
Proof.
  intros s t (Hs & Ht & Hv & Hc & Hh & Hr). unfold mark_visited. rewrite Hv.
  destruct (cell_set (visited t) i j 1); [|done].
  split; [done|]. unfold same_but_grid. simpl. by rewrite Hc, Hh, Hr.
Qed.

Lemma sim_incr_count : sim incr_count.
Proof.
  intros s t (Hs & Ht & Hv & Hc & Hh & Hr). unfold incr_count.
  split; [done|]. unfold same_but_grid. simpl. by rewrite Hc.
Qed.

Lemma sim_get_count : sim get_count.
Proof.
  intros s t Hst. pose proof Hst as (Hs & Ht & Hv & Hc & Hh & Hr). by split.
Qed.

Lemma sim_note_root i j : sim (note_root i j).
Proof.
  intros s t (Hs & Ht & Hv & Hc & Hh & Hr). unfold note_root.
  split; [done|]. unfold same_but_grid. simpl. by rewrite Hr.
Qed.

Lemma sim_dfs f n : ∀ i j, sim (dfs f n m i j).
Proof.
  induction f as [|f IH]; intros i j; [by intros s t Hst|].
  rewrite dfs_S.
  destruct ((i <? 0) || (j <? 0) || (i >=? n) || (j >=? m)) eqn:Hguard;
    [apply sim_ret|].
  apply sim_bind; [apply sim_read_grid; lia|]. intros c.
  destruct (c =? 1); [apply sim_ret|].
  apply sim_bind; [apply sim_read_visited|]. intros v.
  destruct (negb (v =? 0)); [apply sim_ret|].
  apply sim_bind; [apply sim_mark_visited|]. intros _.
  repeat (apply sim_bind; [apply IH|]; intros _). apply IH.
Qed.

Lemma sim_unvisited_land i j : j < m → sim (unvisited_land i j).
Proof.
  intros Hj. unfold unvisited_land.
  apply sim_bind; [by apply sim_read_grid|]. intros c.
  destruct (c =? 0); [|apply sim_ret].
  apply sim_bind; [apply sim_read_visited|]. intros v. apply sim_ret.
Qed.

Lemma sim_flood_if_new f n i j : j < m → sim (flood_if_new f n m i j).
Proof.
  intros Hj. unfold flood_if_new.
  apply sim_bind; [by apply sim_unvisited_land|]. intros [|]; [|apply sim_ret].
  apply sim_bind; [apply sim_note_root|]. intros _. apply sim_dfs.
Qed.

Lemma sim_closedIsland_body f n : 1 ≤ m → sim (closedIsland_body f n m).
Proof.
  intros Hm. unfold closedIsland_body, mark_border, count_islands.
  apply sim_bind.
  { apply sim_bind; [|intros _]; apply sim_for_range; intros i Hi;
      (apply sim_bind; [|intros _]; apply sim_flood_if_new; lia). }
  intros _. apply sim_bind; [|intros _; apply sim_get_count].
  apply sim_for_range. intros i Hi. apply sim_for_range. intros j Hj.
  apply sim_bind; [apply sim_unvisited_land; lia|]. intros [|]; [|apply sim_ret].
  apply sim_bind; [apply sim_note_root|]. intros _.
  apply sim_bind; [apply sim_dfs|]. intros _. apply sim_incr_count.
Qed.
End window.

Lemma cell_at_take_columns (g : Grid) (l : nat) i j :
  j < Z.of_nat l → cell_at g i j = cell_at (take l <$> g) i j.
Proof.
  intros Hj. unfold cell_at, vec_at.
  destruct (Z.ltb_spec i 0); [done|].
  rewrite list_lookup_fmap. destruct (g !! Z.to_nat i) as [r|]; [|done]. simpl.
  destruct (Z.ltb_spec j 0); [done|].
  by rewrite lookup_take_lt by lia.
Qed.

(** X10: cells in columns beyond the length of the first row are never read: the
    call behaves on the grid as on the grid with every row cut to that
    length (same result, same error, for every budget). *)
Theorem closedIsland_ignores_extra_columns (g : Grid) (r0 : list Z) (fuel : nat) :
  head g = Some r0 → (1 ≤ length r0)%nat →
  rel_res (λ s t, visited s = visited t ∧ count s = count t)
          (closedIsland_run fuel g)
          (closedIsland_run fuel (take (length r0) <$> g)) ∧
  closedIsland g = closedIsland (take (length r0) <$> g).
Proof.
  intros Hhd Hlen.
  assert (∀ f, rel_res (same_but_grid g (take (length r0) <$> g))
                 (closedIsland_run f g)
                 (closedIsland_run f (take (length r0) <$> g))) as Hsim.
  { intros f. destruct g as [|r g0]; simplify_eq/=.
    unfold closedIsland_run.
    change (vec_at (r0 :: g0) 0) with (Some r0).
    set (g' := take (length r0) r0 :: (take (length r0) <$> g0)).
    change (vec_at g' 0) with (Some (take (length r0) r0)).
    cbv beta iota zeta. subst g'. simpl length.
    rewrite length_take, Nat.min_id, length_fmap.
    apply (sim_closedIsland_body (r0 :: g0) (take (length r0) <$> r0 :: g0)
             (Z.of_nat (length r0))
             (λ i j Hj, cell_at_take_columns (r0 :: g0) (length r0) i j Hj)
             f _ ltac:(lia)).
    unfold same_but_grid, init_store. simpl. done. }
  split.
  - specialize (Hsim fuel).
    destruct (closedIsland_run fuel g) as [[a s]| |],
      (closedIsland_run fuel (take (length r0) <$> g)) as [[b t]| |]; try done.
    destruct Hsim as (-> & _ & _ & ? & ? & _). done.
  - unfold closedIsland.
    assert (enough_fuel (take (length r0) <$> g) = enough_fuel g) as ->.
    { unfold enough_fuel. destruct g as [|r g0]; simplify_eq/=.
      by rewrite length_take, Nat.min_id, length_fmap. }
    specialize (Hsim (enough_fuel g)).
    destruct (closedIsland_run (enough_fuel g) g) as [[a s]| |],
      (closedIsland_run (enough_fuel g) (take (length r0) <$> g)) as [[b t]| |];
      try done.
    by destruct Hsim as [-> _].
Qed.

Lemma closedIsland_ignores_extra_columns_witness :
  head [[1;1;1];[1;0;1;0;0];[1;1;1;0]] = Some [1;1;1] ∧
  (1 ≤ length [1;1;1])%nat ∧
  rel_res (λ s t, visited s = visited t ∧ count s = count t)
          (closedIsland_run 10 [[1;1;1];[1;0;1;0;0];[1;1;1;0]])
          (closedIsland_run 10 (take (length [1;1;1]) <$> [[1;1;1];[1;0;1;0;0];[1;1;1;0]])) ∧
  closedIsland [[1;1;1];[1;0;1;0;0];[1;1;1;0]] =
  closedIsland (take (length [1;1;1]) <$> [[1;1;1];[1;0;1;0;0];[1;1;1;0]]).
Proof.
  split; [reflexivity|]. split; [simpl; lia|].
  apply (closedIsland_ignores_extra_columns [[1;1;1];[1;0;1;0;0];[1;1;1;0]] [1;1;1] 10);
    [reflexivity|simpl; lia].
Defined.
